(** * diffusion_fvm: two-point flux finite volumes on a polygonal mesh

    A shallow embedding of [task2/src/diffusion_fvm.cpp]: the one-sided
    transmissibility [calc_tf], the field initializer [Problem::initProblem],
    the assembler [Problem::assembleGlobalSystem], the driver [Problem::run]
    and [main].

    - The C++ type [double] is an instance of the class [Arith]: the program
      is written once over the operations the source uses (+, -, *, /, unary
      minus, fabs, <), applied in the order the source applies them.
      [binary64] interprets them as IEEE 754 double precision (the
      arithmetic the compiled program runs), [rational] as exact arithmetic
      on rationals.  Statements that hold in every arithmetic are proved
      for every instance; statements of algebra are proved from the laws
      [ExactArith], and for binary64 where they survive rounding.
    - The mesh library (INMOST), the linear solver and libm are not part of
      the repository: the mesh is a record of the queries the program
      makes, the solver and sin/cos are class parameters.
    - Tags are finite maps from element handles to values; a tag may hold
      data before [initProblem] (a mesh file can carry tags), so the
      initial tags are a parameter.  [exit] and the printed lines are
      threaded through a small state-and-exit monad.
    - The counter [glob_ind] and the global indices are unbounded integers:
      a mesh in memory has far fewer than 2^31 cells. *)

From Stdlib Require Import ZArith QArith Qcanon Qcabs Floats Lia String Bool.
From stdpp Require Import base option list gmap.


(** ** Arithmetic of [double] *)

Class Arith (T : Type) := {
  flit : Z -> T;            (* an integer-valued literal: 0.0, 1.0, 2., 10 *)
  fadd : T -> T -> T;
  fsub : T -> T -> T;
  fmul : T -> T -> T;
  fdiv : T -> T -> T;
  fneg : T -> T;
  fabs : T -> T;
  fltb : T -> T -> bool
}.

Declare Scope dbl_scope.
Delimit Scope dbl_scope with D.
Infix "+" := fadd : dbl_scope.
Infix "-" := fsub : dbl_scope.
Infix "*" := fmul : dbl_scope.
Infix "/" := fdiv : dbl_scope.
Notation "- x" := (fneg x) : dbl_scope.

(** [sin] and [cos] of <math.h>. *)
Class Libm (T : Type) := {
  fsin : T -> T;
  fcos : T -> T
}.

(** What [Solver::Solve], [Iterations], [Residual] and [GetReason] report. *)
Record SolveResult (T : Type) := {
  solved : bool;
  solution : gmap Z T;
  iterations : Z;
  residual : T;
  reason : string
}.
Arguments solved {T} _.
Arguments solution {T} _.
Arguments iterations {T} _.
Arguments residual {T} _.
Arguments reason {T} _.

(** The solver "inner_mptiluc" with the three tolerances the driver sets,
    applied to a matrix and a right-hand side. *)
Class LinearSolver (T : Type) := {
  solve : gmap (Z * Z) T -> gmap Z T -> SolveResult T
}.

(** Laws of exact arithmetic (a field, as far as the proofs need it). *)
Class ExactArith (T : Type) `{Arith T} : Prop := {
  fadd_comm : forall x y : T, (x + y = y + x)%D;
  fadd_assoc : forall x y z : T, (x + (y + z) = (x + y) + z)%D;
  fadd_0_l : forall x : T, (flit 0 + x = x)%D;
  fadd_neg_r : forall x : T, (x + - x = flit 0)%D;
  fsub_def : forall x y : T, (x - y = x + - y)%D;
  fmul_comm : forall x y : T, (x * y = y * x)%D;
  fmul_neg_r : forall x y : T, (x * - y = - (x * y))%D;
  fdiv_neg_l : forall x y : T, (- x / y = - (x / y))%D;
  fdiv_neg_r : forall x y : T, (x / - y = - (x / y))%D
}.

(** Element handles of the mesh library. *)
Abbreviation Handle := N.

(** [enum BoundCondType], stored in an integer tag. *)
Definition BC_DIR : Z := 1.
Definition BC_NEUM : Z := 2.

(** [static_cast<unsigned>] of an [int]. *)
Definition to_unsigned (z : Z) : Z := z mod 2 ^ 32.

Section Program.
Context {T : Type} `{Arith T} `{Libm T} `{LinearSolver T}.

(** *** Constants and the manufactured solution *)

Definition dx : T := flit 1.
Definition dy : T := flit 1.
Definition dxy : T := flit 0.
Definition a : T := flit 10.

Definition C (x y : T) : T := (fsin (a * x) * fsin (a * y))%D.

Definition source (x y : T) : T :=
  ((- a * a) *
   (((flit 2 * dxy) * fcos (a * x)) * fcos (a * y)
    - ((dx + dy) * fsin (a * x)) * fsin (a * y)))%D.

(** *** The mesh, as the program queries it *)

Record Mesh := {
  cells : list Handle;                      (* BeginCell() .. EndCell() *)
  faces : list Handle;                      (* BeginFace() .. EndFace() *)
  cellBarycenter : Handle -> T * T;
  cellVolume : Handle -> T;
  faceBarycenter : Handle -> T * T;
  faceUnitNormal : Handle -> T * T;
  faceArea : Handle -> T;
  faceBoundary : Handle -> bool;
  faceBackCell : Handle -> Handle;          (* never tested by the program *)
  faceFrontCell : Handle -> option Handle   (* None: !isValid() *)
}.

(** *** Tags *)

Record Tags := {
  tagConc : gmap Handle T;
  tagD : gmap Handle (T * T * T);           (* Dx, Dy, Dxy *)
  tagBCtype : gmap Handle Z;
  tagBCval : gmap Handle T;
  tagSource : gmap Handle T;
  tagConcAn : gmap Handle T;
  tagGlobInd : gmap Handle Z;
  tagBCcond : gmap Handle T
}.

Definition emptyTags : Tags :=
  {| tagConc := ∅; tagD := ∅; tagBCtype := ∅; tagBCval := ∅;
     tagSource := ∅; tagConcAn := ∅; tagGlobInd := ∅; tagBCcond := ∅ |}.

Definition setConc (e : Handle) (v : T) (tg : Tags) : Tags :=
  {| tagConc := <[e := v]> (tagConc tg); tagD := tagD tg;
     tagBCtype := tagBCtype tg; tagBCval := tagBCval tg;
     tagSource := tagSource tg; tagConcAn := tagConcAn tg;
     tagGlobInd := tagGlobInd tg; tagBCcond := tagBCcond tg |}.

Definition setD (e : Handle) (v : T * T * T) (tg : Tags) : Tags :=
  {| tagConc := tagConc tg; tagD := <[e := v]> (tagD tg);
     tagBCtype := tagBCtype tg; tagBCval := tagBCval tg;
     tagSource := tagSource tg; tagConcAn := tagConcAn tg;
     tagGlobInd := tagGlobInd tg; tagBCcond := tagBCcond tg |}.

Definition setBCtype (e : Handle) (v : Z) (tg : Tags) : Tags :=
  {| tagConc := tagConc tg; tagD := tagD tg;
     tagBCtype := <[e := v]> (tagBCtype tg); tagBCval := tagBCval tg;
     tagSource := tagSource tg; tagConcAn := tagConcAn tg;
     tagGlobInd := tagGlobInd tg; tagBCcond := tagBCcond tg |}.

Definition setBCval (e : Handle) (v : T) (tg : Tags) : Tags :=
  {| tagConc := tagConc tg; tagD := tagD tg;
     tagBCtype := tagBCtype tg; tagBCval := <[e := v]> (tagBCval tg);
     tagSource := tagSource tg; tagConcAn := tagConcAn tg;
     tagGlobInd := tagGlobInd tg; tagBCcond := tagBCcond tg |}.

Definition setSource (e : Handle) (v : T) (tg : Tags) : Tags :=
  {| tagConc := tagConc tg; tagD := tagD tg;
     tagBCtype := tagBCtype tg; tagBCval := tagBCval tg;
     tagSource := <[e := v]> (tagSource tg); tagConcAn := tagConcAn tg;
     tagGlobInd := tagGlobInd tg; tagBCcond := tagBCcond tg |}.

Definition setConcAn (e : Handle) (v : T) (tg : Tags) : Tags :=
  {| tagConc := tagConc tg; tagD := tagD tg;
     tagBCtype := tagBCtype tg; tagBCval := tagBCval tg;
     tagSource := tagSource tg; tagConcAn := <[e := v]> (tagConcAn tg);
     tagGlobInd := tagGlobInd tg; tagBCcond := tagBCcond tg |}.

Definition setGlobInd (e : Handle) (v : Z) (tg : Tags) : Tags :=
  {| tagConc := tagConc tg; tagD := tagD tg;
     tagBCtype := tagBCtype tg; tagBCval := tagBCval tg;
     tagSource := tagSource tg; tagConcAn := tagConcAn tg;
     tagGlobInd := <[e := v]> (tagGlobInd tg); tagBCcond := tagBCcond tg |}.

Definition setBCcond (e : Handle) (v : T) (tg : Tags) : Tags :=
  {| tagConc := tagConc tg; tagD := tagD tg;
     tagBCtype := tagBCtype tg; tagBCval := tagBCval tg;
     tagSource := tagSource tg; tagConcAn := tagConcAn tg;
     tagGlobInd := tagGlobInd tg; tagBCcond := <[e := v]> (tagBCcond tg) |}.

(** [e.Real(tag)], [e.Integer(tag)], [e.RealArray(tagD)]: data that was
    never written reads as zero. *)
Definition real (tag : gmap Handle T) (e : Handle) : T :=
  default (flit 0) (tag !! e).
Definition integer (tag : gmap Handle Z) (e : Handle) : Z :=
  default 0%Z (tag !! e).
Definition realArray3 (tag : gmap Handle (T * T * T)) (e : Handle) : T * T * T :=
  default (flit 0, flit 0, flit 0) (tag !! e).

(** The 2x2 tensor [DA] built from the three stored values of a cell. *)
Definition tensor (tg : Tags) (c : Handle) : (T * T) * (T * T) :=
  let '(d0, d1, d2) := realArray3 (tagD tg) c in ((d0, d2), (d2, d1)).

(** *** Sparse matrix and vector *)

Definition mat_get (A : gmap (Z * Z) T) (i j : Z) : T :=
  default (flit 0) (A !! (i, j)).
Definition mat_add (A : gmap (Z * Z) T) (i j : Z) (v : T) : gmap (Z * Z) T :=
  <[(i, j) := (mat_get A i j + v)%D]> A.
Definition mat_sub (A : gmap (Z * Z) T) (i j : Z) (v : T) : gmap (Z * Z) T :=
  <[(i, j) := (mat_get A i j - v)%D]> A.
Definition vec_get (v : gmap Z T) (i : Z) : T :=
  default (flit 0) (v !! i).
Definition vec_sub (v : gmap Z T) (i : Z) (x : T) : gmap Z T :=
  <[i := (vec_get v i - x)%D]> v.

(** *** calc_tf *)

Definition calc_tf (D : (T * T) * (T * T)) (nf : T * T) (dA : T * T) : T :=
  let DdA0 := (D.1.1 * dA.1 + D.1.2 * dA.2)%D in
  let DdA1 := (D.2.1 * dA.1 + D.2.2 * dA.2)%D in
  ((DdA0 * nf.1 + DdA1 * nf.2) / (dA.1 * dA.1 + dA.2 * dA.2))%D.

(** The displacement [xf - xc] from a cell centre to a face centre. *)
Definition displacement (xf xc : T * T) : T * T :=
  ((xf.1 - xc.1)%D, (xf.2 - xc.2)%D).

(** The transmissibility of cell [c] towards face [f]: the tensor of [c],
    the unit normal of [f], the displacement from [c] to [f]. *)
Definition cell_tf (m : Mesh) (tg : Tags) (f c : Handle) : T :=
  calc_tf (tensor tg c) (faceUnitNormal m f)
          (displacement (faceBarycenter m f) (cellBarycenter m c)).

(** The value stored for an internal face: [tfA * tfB / (tfA - tfB)]. *)
Definition conductivity (tfA tfB : T) : T := (tfA * tfB / (tfA - tfB))%D.

(** *** Output, exit, state *)

Inductive Event :=
| OutN (n : Z)                                 (* "N = ..." *)
| OutInvalidFrontCell                          (* "Invalid FrontCell!" *)
| CallSolve (A : gmap (Z * Z) T) (rhs : gmap Z T)
| OutIterations (n : Z)                        (* "Number of iterations: ..." *)
| OutResidual (r : T)                          (* "Residual: ..." *)
| OutSolverFailed (why : string)               (* "Linear solver failed: ..." *)
| OutErrorC (v : T)                            (* "Error C-norm: ..." *)
| OutErrorL2 (v : T)                           (* "Error L2-norm: ..." *)
| CallSave (file : string)
| OutSuccess                                   (* "Success" *)
| OutUsage (prog : string).                    (* "Usage: ... mesh_file" *)

Record State := {
  tags : Tags;
  out : list Event
}.

Inductive Result (X : Type) :=
| Ret (x : X) (s : State)
| Exited (code : Z) (s : State).
Arguments Ret {X} _ _.
Arguments Exited {X} _ _.

Definition M (X : Type) : Type := State -> Result X.

Definition ret {X} (x : X) : M X := fun s => Ret x s.
Definition bind {X Y} (c : M X) (k : X -> M Y) : M Y :=
  fun s => match c s with
           | Ret x s' => k x s'
           | Exited code s' => Exited code s'
           end.
Definition exit {X} (code : Z) : M X := fun s => Exited code s.
Definition emit (e : Event) : M unit :=
  fun s => Ret tt {| tags := tags s; out := out s ++ [e] |}.
Definition getTags : M Tags := fun s => Ret (tags s) s.
Definition modifyTags (g : Tags -> Tags) : M unit :=
  fun s => Ret tt {| tags := g (tags s); out := out s |}.

Definition finalState {X} (r : Result X) : State :=
  match r with Ret _ s => s | Exited _ s => s end.

Notation "x <- c ; k" := (bind c (fun x => k))
  (at level 100, c at next level, right associativity).
Notation "c ;; k" := (bind c (fun _ => k))
  (at level 100, right associativity).

(** A loop over mesh elements carrying its local variables [acc]. *)
Fixpoint forEach {X S} (body : X -> S -> M S) (l : list X) (acc : S) : M S :=
  match l with
  | [] => ret acc
  | x :: l' => acc' <- body x acc ; forEach body l' acc'
  end.

(** *** Problem::initProblem *)

Definition initCell (m : Mesh) (c : Handle) (glob_ind : Z) : M Z :=
  let xc := cellBarycenter m c in
  modifyTags (setD c (dx, dy, dxy)) ;;
  modifyTags (setConcAn c (C xc.1 xc.2)) ;;
  modifyTags (setSource c (source xc.1 xc.2)) ;;
  modifyTags (setGlobInd c glob_ind) ;;
  ret (glob_ind + 1)%Z.

Definition initFace (m : Mesh) (f : Handle) (_ : unit) : M unit :=
  let xf := faceBarycenter m f in
  if faceBoundary m f then
    modifyTags (setBCtype f BC_DIR) ;;
    modifyTags (setBCval f (C xf.1 xf.2))
  else
    let cA := faceBackCell m f in
    match faceFrontCell m f with
    | None => emit OutInvalidFrontCell ;; exit 1
    | Some cB =>
        tg <- getTags ;
        let tfA := cell_tf m tg f cA in
        let tfB := cell_tf m tg f cB in
        modifyTags (setBCcond f (conductivity tfA tfB))
    end.

Definition initProblem (m : Mesh) : M unit :=
  forEach (initCell m) (cells m) 0%Z ;;
  forEach (initFace m) (faces m) tt.

(** *** Problem::assembleGlobalSystem *)

Definition System : Type := gmap (Z * Z) T * gmap Z T.

(** The [BC_DIR] branch of a boundary face. *)
Definition dirichletFace (m : Mesh) (tg : Tags) (f : Handle) (sys : System) : System :=
  let cA := faceBackCell m f in
  let t := cell_tf m tg f cA in
  let id := integer (tagGlobInd tg) cA in
  (mat_sub sys.1 id id (t * faceArea m f)%D,
   vec_sub sys.2 id ((t * real (tagBCval tg) f) * faceArea m f)%D).

(** An internal face between [cA] (back) and [cB] (front). *)
Definition internalFace (m : Mesh) (tg : Tags) (f cB : Handle) (sys : System) : System :=
  let cA := faceBackCell m f in
  let t := real (tagBCcond tg) f in
  let idA := integer (tagGlobInd tg) cA in
  let idB := integer (tagGlobInd tg) cB in
  let A1 := mat_add sys.1 idA idA (t * faceArea m f)%D in
  let A2 := mat_sub A1 idA idB (t * faceArea m f)%D in
  let A3 := mat_sub A2 idB idA (t * faceArea m f)%D in
  let A4 := mat_add A3 idB idB (t * faceArea m f)%D in
  (A4, sys.2).

Definition assembleFace (m : Mesh) (f : Handle) (sys : System) : M System :=
  tg <- getTags ;
  if faceBoundary m f then
    let BCtype := integer (tagBCtype tg) f in
    if (BCtype =? BC_NEUM)%Z then ret sys
    else if (BCtype =? BC_DIR)%Z then ret (dirichletFace m tg f sys)
    else ret sys
  else
    match faceFrontCell m f with
    | None => emit OutInvalidFrontCell ;; exit 1
    | Some cB => ret (internalFace m tg f cB sys)
    end.

Definition sourceCell (m : Mesh) (tg : Tags) (c : Handle) (sys : System) : System :=
  let i := integer (tagGlobInd tg) c in
  (sys.1, vec_sub sys.2 i (real (tagSource tg) c * cellVolume m c)%D).

Definition assembleCell (m : Mesh) (c : Handle) (sys : System) : M System :=
  tg <- getTags ; ret (sourceCell m tg c sys).

Definition assembleGlobalSystem (m : Mesh) (sys : System) : M System :=
  sys' <- forEach (assembleFace m) (faces m) sys ;
  forEach (assembleCell m) (cells m) sys'.

(** *** Problem::run *)

(** [std::max(a, b)] is [(a < b) ? b : a]. *)
Definition fmax (x y : T) : T := if fltb x y then y else x.

(** One round of the last loop of [run]; [norms] is [(normC, normL2)]. *)
Definition writeBackCell (m : Mesh) (sol : gmap Z T) (c : Handle)
    (norms : T * T) : M (T * T) :=
  tg <- getTags ;
  let ind := to_unsigned (integer (tagGlobInd tg) c) in
  modifyTags (setConc c (vec_get sol ind)) ;;
  tg' <- getTags ;
  let diff := fabs (real (tagConc tg') c - real (tagConcAn tg') c)%D in
  ret (fmax norms.1 diff, (norms.2 + diff * cellVolume m c)%D).

Definition run (m : Mesh) : M unit :=
  let N := to_unsigned (Z.of_nat (length (cells m))) in
  emit (OutN N) ;;
  sys <- assembleGlobalSystem m (∅, ∅) ;
  emit (CallSolve sys.1 sys.2) ;;
  let r := solve sys.1 sys.2 in
  emit (OutIterations (iterations r)) ;;
  emit (OutResidual (residual r)) ;;
  if negb (solved r) then
    emit (OutSolverFailed (reason r)) ;; exit 1
  else
    norms <- forEach (writeBackCell m (solution r)) (cells m) (flit 0, flit 0) ;
    emit (OutErrorC norms.1) ;;
    emit (OutErrorL2 norms.2) ;;
    emit (CallSave "res.pvtk").

(** *** main *)

(** One round of the loop of [main]: a freshly loaded mesh with the tag
    data its file carries, a fresh [Problem]. *)
Definition processMesh (loaded : Mesh * Tags) (_ : unit) : M unit :=
  modifyTags (fun _ => loaded.2) ;;
  initProblem loaded.1 ;;
  run loaded.1 ;;
  emit OutSuccess.

(** [main]: [prog] is [argv[0]], [loaded] the meshes named by the other
    arguments.  Returns the exit status and what was printed. *)
Definition main (prog : string) (loaded : list (Mesh * Tags)) : Z * list Event :=
  match loaded with
  | [] => ((-1)%Z, [OutUsage prog])
  | _ =>
      match forEach processMesh loaded tt {| tags := emptyTags; out := [] |} with
      | Ret _ s => (0%Z, out s)
      | Exited code s => (code, out s)
      end
  end.

End Program.

Arguments Mesh T : clear implicits.
Arguments Tags T : clear implicits.
Arguments State T : clear implicits.
Arguments Event T : clear implicits.
Arguments System T : clear implicits.
Arguments Ret {T X} x s.
Arguments Exited {T X} code s.

(** ** Derived notions used in the statements *)

Section Notions.
Context {T : Type} `{Arith T}.

(** Every internal face of the mesh resolves its front cell. *)
Definition resolved (m : Mesh T) : Prop :=
  Forall (fun f => faceBoundary m f = false -> is_Some (faceFrontCell m f))
         (faces m).

(** The global indices of the cells next to every face lie in [0, N). *)
Definition indicesBelow (m : Mesh T) (tg : Tags T) (N : Z) : Prop :=
  Forall (fun f =>
            (0 <= integer (tagGlobInd tg) (faceBackCell m f) < N)%Z /\
            match faceFrontCell m f with
            | Some cB => (0 <= integer (tagGlobInd tg) cB < N)%Z
            | None => True
            end)
         (faces m).

(** What one face adds to the system when the face loop does not exit. *)
Definition faceContribution (m : Mesh T) (tg : Tags T) (sys : System T)
    (f : Handle) : System T :=
  if faceBoundary m f then
    if (integer (tagBCtype tg) f =? BC_NEUM)%Z then sys
    else if (integer (tagBCtype tg) f =? BC_DIR)%Z then dirichletFace m tg f sys
    else sys
  else
    match faceFrontCell m f with
    | Some cB => internalFace m tg f cB sys
    | None => sys
    end.

(** The system the two loops of the assembler build from [sys]. *)
Definition assembled (m : Mesh T) (tg : Tags T) (sys : System T) : System T :=
  fold_left (fun s c => sourceCell m tg c s) (cells m)
            (fold_left (faceContribution m tg) (faces m) sys).

(** The matrix reads the same across the diagonal. *)
Definition symmetric (A : gmap (Z * Z) T) : Prop :=
  forall i j, mat_get A i j = mat_get A j i.

(** Face [f] is internal and lies between the cells with global indices
    [i] and [j] (in either order). *)
Definition links (m : Mesh T) (tg : Tags T) (i j : Z) (f : Handle) : bool :=
  negb (faceBoundary m f) &&
  match faceFrontCell m f with
  | Some cB =>
      let idA := integer (tagGlobInd tg) (faceBackCell m f) in
      let idB := integer (tagGlobInd tg) cB in
      ((idA =? i)%Z && (idB =? j)%Z) || ((idA =? j)%Z && (idB =? i)%Z)
  | None => false
  end.

(** What the internal faces between [i] and [j] leave in an off-diagonal
    entry: [t * Area] of each, subtracted from zero in the order of the
    face loop. *)
Definition offDiagonal (m : Mesh T) (tg : Tags T) (i j : Z) : T :=
  fold_left (fun acc f => (acc - real (tagBCcond tg) f * faceArea m f)%D)
            (filter (fun f => links m tg i j f = true) (faces m))
            (flit 0).

(** Face [f] is a Dirichlet boundary face of the cell with global index [i]. *)
Definition dirichletOf (m : Mesh T) (tg : Tags T) (i : Z) (f : Handle) : bool :=
  faceBoundary m f && (integer (tagBCtype tg) f =? BC_DIR)%Z &&
  (integer (tagGlobInd tg) (faceBackCell m f) =? i)%Z.

(** The sum of the diagonal contributions [- t * Area] of the Dirichlet
    boundary faces of cell [i]. *)
Definition boundaryDiagonal (m : Mesh T) (tg : Tags T) (i : Z) : T :=
  fold_left (fun acc f =>
               (acc + - (cell_tf m tg f (faceBackCell m f) * faceArea m f))%D)
            (filter (fun f => dirichletOf m tg i f = true) (faces m))
            (flit 0).

(** Every cell next to a face is one of the cells of the mesh. *)
Definition cellsListed (m : Mesh T) : Prop :=
  Forall (fun f =>
            faceBackCell m f ∈ cells m /\
            match faceFrontCell m f with
            | Some cB => cB ∈ cells m
            | None => True
            end)
         (faces m).

(** Face [f] is a boundary face of cell [c]. *)
Definition boundaryOf (m : Mesh T) (c f : Handle) : bool :=
  faceBoundary m f && bool_decide (faceBackCell m f = c).

(** The sum of [- t * Area] over the boundary faces of cell [c], with [t]
    the one-sided transmissibility of [c] towards the face. *)
Definition cellBoundarySum (m : Mesh T) (tg : Tags T) (c : Handle) : T :=
  fold_left (fun acc f => (acc + - (cell_tf m tg f c * faceArea m f))%D)
            (filter (fun f => boundaryOf m c f = true) (faces m))
            (flit 0).

(** The sum of the entries of row [i] over the columns [0 .. N-1]. *)
Definition rowSum (A : gmap (Z * Z) T) (i : Z) (N : nat) : T :=
  fold_left (fun acc j => (acc + mat_get A i j)%D) (seqZ 0 (Z.of_nat N)) (flit 0).

(** The contract of [calc_tf] in the words of its description: the matrix
    vector product, the inner product, [(D d) . n / (d . d)]. *)
Definition matVec (D : (T * T) * (T * T)) (d : T * T) : T * T :=
  ((D.1.1 * d.1 + D.1.2 * d.2)%D, (D.2.1 * d.1 + D.2.2 * d.2)%D).
Definition dot (u v : T * T) : T := (u.1 * v.1 + u.2 * v.2)%D.
Definition tf_contract (D : (T * T) * (T * T)) (n d : T * T) : T :=
  (dot (matVec D d) n / dot d d)%D.

(** The mesh with face [f] turned around: back and front cell exchanged,
    unit normal negated. *)
Definition reverseFace (m : Mesh T) (f cB : Handle) : Mesh T :=
  {| cells := cells m; faces := faces m;
     cellBarycenter := cellBarycenter m; cellVolume := cellVolume m;
     faceBarycenter := faceBarycenter m;
     faceUnitNormal := fun g =>
       if decide (g = f) then ((- (faceUnitNormal m f).1)%D, (- (faceUnitNormal m f).2)%D)
       else faceUnitNormal m g;
     faceArea := faceArea m; faceBoundary := faceBoundary m;
     faceBackCell := fun g => if decide (g = f) then cB else faceBackCell m g;
     faceFrontCell := fun g =>
       if decide (g = f) then Some (faceBackCell m f) else faceFrontCell m g |}.

(** The four events of [run] up to and including the residual: the size,
    the call of the solver on the assembled system, and the two lines
    printed after it. *)
Definition report `{LinearSolver T} (m : Mesh T) (st : State T) : list (Event T) :=
  let sys := assembled m (tags st) (∅, ∅) in
  let r := solve sys.1 sys.2 in
  [OutN (to_unsigned (Z.of_nat (length (cells m))));
   CallSolve sys.1 sys.2;
   OutIterations (iterations r);
   OutResidual (residual r)].

End Notions.

(** ** The two arithmetics *)

Definition float_of_Z (z : Z) : float :=
  match z with
  | Z0 => PrimFloat.zero
  | Zpos p => PrimFloat.of_uint63 (Uint63.of_Z (Zpos p))
  | Zneg p => PrimFloat.opp (PrimFloat.of_uint63 (Uint63.of_Z (Zpos p)))
  end.

(** IEEE 754 double precision, round to nearest even: C++ [double]. *)
#[global] Instance binary64 : Arith float := {|
  flit := float_of_Z;
  fadd := PrimFloat.add; fsub := PrimFloat.sub;
  fmul := PrimFloat.mul; fdiv := PrimFloat.div;
  fneg := PrimFloat.opp; fabs := PrimFloat.abs; fltb := PrimFloat.ltb |}.

Definition Qc_ltb (x y : Qc) : bool :=
  match Qclt_le_dec x y with left _ => true | right _ => false end.

(** Exact arithmetic on rationals. *)
#[global] Instance rational : Arith Qc := {|
  flit := fun z => Q2Qc (inject_Z z);
  fadd := Qcplus; fsub := Qcminus; fmul := Qcmult; fdiv := Qcdiv;
  fneg := Qcopp; fabs := Qcabs; fltb := Qc_ltb |}.

(** ** Sample data

    Neither arithmetic computes sin and cos; the sample runs use their
    first-order expansions.  Every theorem below holds for all [Libm] and
    all [LinearSolver]: the samples only show that hypotheses can be met. *)

Section Samples.
Context {T : Type} `{Arith T}.

Definition firstOrder : Libm T :=
  {| fsin := fun x => x; fcos := fun _ => flit 1 |}.

(** A solver that gives up. *)
Definition failingSolver : LinearSolver T :=
  {| solve := fun _ _ =>
       {| solved := false; solution := ∅; iterations := 500;
          residual := flit 1; reason := "maximum iterations reached" |} |}.

(** A solver that reports success and returns the right-hand side. *)
Definition echoSolver : LinearSolver T :=
  {| solve := fun _ rhs =>
       {| solved := true; solution := rhs; iterations := 1;
          residual := flit 0; reason := "" |} |}.

Definition half : T := (flit 1 / flit 2)%D.
Definition quarter : T := (flit 1 / flit 4)%D.

(** Two unit squares side by side, cells 10 = [0,1]x[0,1] and
    20 = [1,2]x[0,1]; face 1 is the shared edge x = 1, faces 2..7 are the
    six boundary edges. *)
Definition twoSquares : Mesh T :=
  {| cells := [10; 20]%N;
     faces := [1; 2; 3; 4; 5; 6; 7]%N;
     cellBarycenter := fun c =>
       if decide (c = 10%N) then (half, half) else ((flit 3 / flit 2)%D, half);
     cellVolume := fun _ => flit 1;
     faceBarycenter := fun f =>
       match f with
       | 1%N => (flit 1, half)
       | 2%N => (half, flit 0)
       | 3%N => (flit 0, half)
       | 4%N => (half, flit 1)
       | 5%N => ((flit 3 / flit 2)%D, flit 0)
       | 6%N => (flit 2, half)
       | _ => ((flit 3 / flit 2)%D, flit 1)
       end;
     faceUnitNormal := fun f =>
       match f with
       | 1%N | 6%N => (flit 1, flit 0)
       | 2%N | 5%N => (flit 0, flit (-1))
       | 3%N => (flit (-1), flit 0)
       | _ => (flit 0, flit 1)
       end;
     faceArea := fun _ => flit 1;
     faceBoundary := fun f => negb (N.eqb f 1);
     faceBackCell := fun f =>
       match f with 1%N | 2%N | 3%N | 4%N => 10%N | _ => 20%N end;
     faceFrontCell := fun f => if N.eqb f 1 then Some 20%N else None |}.

(** The same two squares with the shared edge split at its midpoint into
    the faces 1 (lower half) and 8 (upper half), as a hanging node of a
    polygonal mesh does. *)
Definition splitEdge : Mesh T :=
  {| cells := [10; 20]%N;
     faces := [1; 8; 2; 3; 4; 5; 6; 7]%N;
     cellBarycenter := cellBarycenter twoSquares;
     cellVolume := cellVolume twoSquares;
     faceBarycenter := fun f =>
       match f with
       | 1%N => (flit 1, quarter)
       | 8%N => (flit 1, (flit 3 / flit 4)%D)
       | _ => faceBarycenter twoSquares f
       end;
     faceUnitNormal := fun f =>
       match f with 8%N => (flit 1, flit 0) | _ => faceUnitNormal twoSquares f end;
     faceArea := fun f => match f with 1%N | 8%N => half | _ => flit 1 end;
     faceBoundary := fun f => negb (N.eqb f 1 || N.eqb f 8);
     faceBackCell := fun f =>
       match f with 8%N => 10%N | _ => faceBackCell twoSquares f end;
     faceFrontCell := fun f =>
       if (N.eqb f 1 || N.eqb f 8) then Some 20%N else None |}.

(** The two squares read from a damaged file: the shared edge is not a
    boundary face and its front cell is missing. *)
Definition danglingFace : Mesh T :=
  {| cells := cells twoSquares; faces := faces twoSquares;
     cellBarycenter := cellBarycenter twoSquares;
     cellVolume := cellVolume twoSquares;
     faceBarycenter := faceBarycenter twoSquares;
     faceUnitNormal := faceUnitNormal twoSquares;
     faceArea := faceArea twoSquares;
     faceBoundary := faceBoundary twoSquares;
     faceBackCell := faceBackCell twoSquares;
     faceFrontCell := fun _ => None |}.

(** A unit square and a rectangle side by side, cells 10 = [0,1]x[0,1]
    and 20 = [1,3]x[0,1], with the faces numbered as in [twoSquares]: the
    cell centres are at unequal distances from the shared edge. *)
Definition twoRectangles : Mesh T :=
  {| cells := [10; 20]%N;
     faces := [1; 2; 3; 4; 5; 6; 7]%N;
     cellBarycenter := fun c =>
       if decide (c = 10%N) then (half, half) else (flit 2, half);
     cellVolume := fun c => if decide (c = 10%N) then flit 1 else flit 2;
     faceBarycenter := fun f =>
       match f with
       | 1%N => (flit 1, half)
       | 2%N => (half, flit 0)
       | 3%N => (flit 0, half)
       | 4%N => (half, flit 1)
       | 5%N => (flit 2, flit 0)
       | 6%N => (flit 3, half)
       | _ => (flit 2, flit 1)
       end;
     faceUnitNormal := faceUnitNormal twoSquares;
     faceArea := fun f => match f with 5%N | 7%N => flit 2 | _ => flit 1 end;
     faceBoundary := faceBoundary twoSquares;
     faceBackCell := faceBackCell twoSquares;
     faceFrontCell := faceFrontCell twoSquares |}.

(** A state before [initProblem]: no tag data, nothing printed. *)
Definition freshState : State T := {| tags := emptyTags; out := [] |}.

End Samples.

#[global] Instance firstOrder_binary64 : Libm float := firstOrder.
#[global] Instance firstOrder_rational : Libm Qc := firstOrder.

(** ** Notions for the rest of the program *)

(** The order [<] of the arithmetic is a strict order in which any two
    values compare: irreflexive, transitive, and whatever lies below z
    lies below y or has y below z. *)
Class StrictLess (T : Type) `{Arith T} : Prop := {
  fltb_irrefl : forall x : T, fltb x x = false;
  fltb_trans : forall x y z : T, fltb x y = true -> fltb y z = true -> fltb x z = true;
  fltb_cotrans : forall x y z : T, fltb x z = true -> fltb x y = true \/ fltb y z = true
}.

Section MoreNotions.
Context {T : Type} `{Arith T}.

(** Cell [c] has global index [i]. *)
Definition cellOf (tg : Tags T) (i : Z) (c : Handle) : bool :=
  (integer (tagGlobInd tg) c =? i)%Z.

(** Entry [i] of the right-hand side as the two loops of the assembler
    leave it: the Dirichlet faces of cell [i] in the order of the face
    loop, then the source terms in the order of the cell loop. *)
Definition rhsEntry (m : Mesh T) (tg : Tags T) (i : Z) : T :=
  fold_left (fun acc c => (acc - real (tagSource tg) c * cellVolume m c)%D)
    (filter (fun c => cellOf tg i c = true) (cells m))
    (fold_left
       (fun acc f =>
          (acc - cell_tf m tg f (faceBackCell m f) * real (tagBCval tg) f
                 * faceArea m f)%D)
       (filter (fun f => dirichletOf m tg i f = true) (faces m))
       (flit 0)).

(** Face [f] writes to the matrix entry (i, j): a Dirichlet face writes to
    the diagonal entry of its cell, an internal face to the four entries
    of its two cells. *)
Definition touches (m : Mesh T) (tg : Tags T) (i j : Z) (f : Handle) : bool :=
  if faceBoundary m f then
    negb (integer (tagBCtype tg) f =? BC_NEUM)%Z &&
    (integer (tagBCtype tg) f =? BC_DIR)%Z &&
    (integer (tagGlobInd tg) (faceBackCell m f) =? i)%Z &&
    (integer (tagGlobInd tg) (faceBackCell m f) =? j)%Z
  else
    match faceFrontCell m f with
    | Some cB =>
        let idA := integer (tagGlobInd tg) (faceBackCell m f) in
        let idB := integer (tagGlobInd tg) cB in
        ((idA =? i)%Z || (idB =? i)%Z) && ((idA =? j)%Z || (idB =? j)%Z)
    | None => false
    end.

(** What one face does to the diagonal entry (i, i): a Dirichlet face of
    cell i subtracts [t * Area]; an internal face next to cell i adds its
    [t * Area] (and, were both its cells cell i, would add, subtract twice
    and add again). *)
Definition diagonalStep (m : Mesh T) (tg : Tags T) (i : Z) (acc : T)
    (f : Handle) : T :=
  if faceBoundary m f then
    if dirichletOf m tg i f
    then (acc - cell_tf m tg f (faceBackCell m f) * faceArea m f)%D
    else acc
  else
    match faceFrontCell m f with
    | Some cB =>
        let v := (real (tagBCcond tg) f * faceArea m f)%D in
        let idA := integer (tagGlobInd tg) (faceBackCell m f) in
        let idB := integer (tagGlobInd tg) cB in
        if (idA =? i)%Z && (idB =? i)%Z then (acc + v - v - v + v)%D
        else if (idA =? i)%Z || (idB =? i)%Z then (acc + v)%D
        else acc
    | None => acc
    end.

(** The error of cell [c]: the absolute difference between the entry of
    the solution vector at the cell's index and the analytical value. *)
Definition cellError (tg : Tags T) (sol : gmap Z T) (c : Handle) : T :=
  fabs (vec_get sol (to_unsigned (integer (tagGlobInd tg) c))
        - real (tagConcAn tg) c)%D.

(** The two norms accumulated over a list of cells, from [norms]. *)
Definition errorNorms (m : Mesh T) (tg : Tags T) (sol : gmap Z T)
    (l : list Handle) (norms : T * T) : T * T :=
  fold_left
    (fun n c => (fmax n.1 (cellError tg sol c),
                 (n.2 + cellError tg sol c * cellVolume m c)%D))
    l norms.

(** The tags after the solution was written to a list of cells. *)
Definition scattered (tg : Tags T) (sol : gmap Z T) (l : list Handle) : Tags T :=
  fold_left
    (fun t c => setConc c (vec_get sol (to_unsigned (integer (tagGlobInd tg) c))) t)
    l tg.

End MoreNotions.

(** Classification of a binary64 number by its IEEE 754 value. *)
Definition finite64 (x : float) : bool :=
  match Prim2SF x with
  | S754_zero _ | S754_finite _ _ _ => true
  | _ => false
  end.
Definition zero64 (x : float) : bool :=
  match Prim2SF x with S754_zero _ => true | _ => false end.

(** Sample tags: [tg] with the faces of [l] reclassified as Neumann. *)
Definition reclassified {T : Type} (tg : Tags T) (l : list Handle) : Tags T :=
  fold_left (fun t f => setBCtype f BC_NEUM t) l tg.

(** The eight events of a round of [main] that ends well. *)
Definition successBlock {T : Type} (b : list (Event T)) : Prop :=
  exists n A rhs its res normC normL2,
    b = [OutN n; CallSolve A rhs; OutIterations its; OutResidual res;
         OutErrorC normC; OutErrorL2 normL2; CallSave "res.pvtk"; OutSuccess].

(** A solver that reports success on every system. *)
Definition alwaysSolves {T : Type} (S : LinearSolver T) : Prop :=
  forall A rhs, solved (@solve T S A rhs) = true.

(** * Theorems *)

Section InitProblem.
Context {T : Type} `{Arith T} `{Libm T}.
Implicit Types (m : Mesh T) (st : State T) (tg : Tags T).

(** ** The loops of initProblem, one round at a time *)

Lemma initCell_eq m c g st :
  initCell m c g st =
  Ret (g + 1)%Z
      {| tags := setGlobInd c g
                   (setSource c (source (cellBarycenter m c).1 (cellBarycenter m c).2)
                      (setConcAn c (C (cellBarycenter m c).1 (cellBarycenter m c).2)
                         (setD c (dx, dy, dxy) (tags st))));
         out := out st |}.
Proof. reflexivity. Qed.

Lemma initFace_eq m f st :
  initFace m f tt st =
  if faceBoundary m f then
    Ret tt {| tags := setBCval f (C (faceBarycenter m f).1 (faceBarycenter m f).2)
                        (setBCtype f BC_DIR (tags st));
              out := out st |}
  else
    match faceFrontCell m f with
    | None => Exited 1 {| tags := tags st; out := out st ++ [OutInvalidFrontCell] |}
    | Some cB =>
        Ret tt {| tags := setBCcond f
                            (conductivity (cell_tf m (tags st) f (faceBackCell m f))
                                          (cell_tf m (tags st) f cB))
                            (tags st);
                  out := out st |}
    end.
Proof.
  unfold initFace. destruct (faceBoundary m f); [reflexivity|].
  destruct (faceFrontCell m f); reflexivity.
Qed.

(** The cell loop always runs to its end, prints nothing, numbers the
    cells in the order of the iteration and leaves the face tags alone. *)
Lemma cellLoop_spec m (l : list Handle) g st :
  exists st',
    forEach (initCell m) l g st = Ret (g + Z.of_nat (length l))%Z st' /\
    out st' = out st /\
    tagBCtype (tags st') = tagBCtype (tags st) /\
    (forall c, c ∉ l -> tagGlobInd (tags st') !! c = tagGlobInd (tags st) !! c) /\
    (NoDup l -> forall (k : nat) c, l !! k = Some c ->
                tagGlobInd (tags st') !! c = Some (g + Z.of_nat k)%Z).
Proof.
  revert g st. induction l as [|c l IH]; intros g st.
  - exists st. cbn. rewrite Z.add_0_r. repeat split; auto.
    intros _ k c Hk. discriminate.
  - cbn [forEach]. unfold bind at 1. rewrite initCell_eq.
    destruct (IH (g + 1)%Z
                {| tags := setGlobInd c g
                     (setSource c (source (cellBarycenter m c).1 (cellBarycenter m c).2)
                        (setConcAn c (C (cellBarycenter m c).1 (cellBarycenter m c).2)
                           (setD c (dx, dy, dxy) (tags st))));
                   out := out st |})
      as (st' & Hrun & Hout & Hbc & Hother & Hidx).
    exists st'. cbn in Hout, Hbc, Hother.
    split; [rewrite Hrun; f_equal; cbn [length]; lia|].
    split; [exact Hout|]. split; [exact Hbc|]. split.
    + intros c' Hc'. apply not_elem_of_cons in Hc' as [Hne Hc'].
      rewrite (Hother c' Hc'). apply lookup_insert_ne. congruence.
    + intros Hnd k c' Hk. apply NoDup_cons in Hnd as [Hc Hnd].
      destruct k as [|k]; cbn in Hk.
      * injection Hk as <-. rewrite (Hother c Hc), lookup_insert_eq.
        f_equal. lia.
      * rewrite (Hidx Hnd k c' Hk). f_equal. lia.
Qed.

(** The face loop never touches the global indices, whether it runs to
    its end or exits. *)
Lemma faceLoop_globInd m (l : list Handle) st :
  tagGlobInd (tags (finalState (forEach (initFace m) l tt st))) =
  tagGlobInd (tags st).
Proof.
  revert st. induction l as [|f l IH]; intros st; [reflexivity|].
  cbn [forEach]. unfold bind at 1. rewrite initFace_eq.
  destruct (faceBoundary m f).
  - rewrite IH. reflexivity.
  - destruct (faceFrontCell m f); [rewrite IH|]; reflexivity.
Qed.

(** Every write of the face loop to the tag BC_type writes [BC_DIR]. *)
Lemma faceLoop_BCtype m (l : list Handle) st f v :
  tagBCtype (tags (finalState (forEach (initFace m) l tt st))) !! f = Some v ->
  v = BC_DIR \/ tagBCtype (tags st) !! f = Some v.
Proof.
  revert st. induction l as [|g l IH]; intros st; [right; assumption|].
  cbn [forEach]. unfold bind at 1. rewrite initFace_eq.
  destruct (faceBoundary m g).
  - intros Hv. destruct (IH _ Hv) as [?|Hv']; [left; assumption|].
    cbn in Hv'. destruct (decide (g = f)) as [->|Hne].
    + rewrite lookup_insert_eq in Hv'. left. congruence.
    + rewrite lookup_insert_ne in Hv' by assumption. right. assumption.
  - destruct (faceFrontCell m g); [|right; assumption].
    intros Hv. destruct (IH _ Hv) as [?|Hv']; [left|right]; assumption.
Qed.

(** With every internal face resolved the face loop runs to its end,
    prints nothing, and leaves on each boundary face the classification
    [BC_DIR] and the value of [C] at the face barycenter. *)
Lemma faceLoop_resolved m (l : list Handle) st :
  Forall (fun f => faceBoundary m f = false -> is_Some (faceFrontCell m f)) l ->
  exists st',
    forEach (initFace m) l tt st = Ret tt st' /\
    out st' = out st /\
    (forall f, f ∈ l -> faceBoundary m f = true ->
       tagBCtype (tags st') !! f = Some BC_DIR /\
       tagBCval (tags st') !! f =
         Some (C (faceBarycenter m f).1 (faceBarycenter m f).2)) /\
    (forall f, f ∉ l ->
       tagBCtype (tags st') !! f = tagBCtype (tags st) !! f /\
       tagBCval (tags st') !! f = tagBCval (tags st) !! f).
Proof.
  revert st. induction l as [|g l IH]; intros st Hres.
  - exists st. split; [reflexivity|]. split; [reflexivity|].
    split; [intros f Hf; inversion Hf|auto].
  - apply Forall_cons in Hres as [Hg Hres].
    cbn [forEach]. unfold bind at 1. rewrite initFace_eq.
    destruct (faceBoundary m g) eqn:Hb.
    + destruct (IH {| tags := setBCval g (C (faceBarycenter m g).1 (faceBarycenter m g).2)
                                (setBCtype g BC_DIR (tags st));
                      out := out st |} Hres)
        as (st' & Hrun & Hout & Hin & Hnot).
      exists st'. split; [exact Hrun|]. split; [exact Hout|]. split.
      * intros f Hf Hbf. destruct (decide (f ∈ l)) as [Hl|Hl]; [auto|].
        apply elem_of_cons in Hf as [->|Hf]; [|contradiction].
        destruct (Hnot g Hl) as [-> ->]. cbn.
        rewrite !lookup_insert_eq. auto.
      * intros f Hf. apply not_elem_of_cons in Hf as [Hne Hf].
        destruct (Hnot f Hf) as [-> ->]. cbn.
        rewrite !lookup_insert_ne by congruence. auto.
    + destruct (Hg eq_refl) as [cB HcB]. rewrite HcB.
      destruct (IH {| tags := setBCcond g
                                (conductivity (cell_tf m (tags st) g (faceBackCell m g))
                                              (cell_tf m (tags st) g cB))
                                (tags st);
                      out := out st |} Hres)
        as (st' & Hrun & Hout & Hin & Hnot).
      exists st'. split; [exact Hrun|]. split; [exact Hout|]. split.
      * intros f Hf Hbf. apply elem_of_cons in Hf as [->|Hf]; [congruence|auto].
      * intros f Hf. apply not_elem_of_cons in Hf as [Hne Hf].
        exact (Hnot f Hf).
Qed.

(** At the first internal face without a front cell the face loop prints
    its message once and exits with status 1. *)
Lemma faceLoop_unresolved m (l : list Handle) st f :
  f ∈ l -> faceBoundary m f = false -> faceFrontCell m f = None ->
  exists st',
    forEach (initFace m) l tt st = Exited 1 st' /\
    out st' = out st ++ [OutInvalidFrontCell].
Proof.
  intros Hf Hb Hfront. revert st.
  induction l as [|g l IH]; intros st; [inversion Hf|].
  cbn [forEach]. unfold bind at 1. rewrite initFace_eq.
  destruct (decide (g = f)) as [->|Hne].
  - rewrite Hb, Hfront. eexists. split; reflexivity.
  - apply elem_of_cons in Hf as [Heq|Hf]; [congruence|].
    destruct (faceBoundary m g).
    + destruct (IH Hf {| tags := setBCval g (C (faceBarycenter m g).1 (faceBarycenter m g).2)
                                   (setBCtype g BC_DIR (tags st));
                         out := out st |}) as (st' & -> & Hout).
      exists st'. auto.
    + destruct (faceFrontCell m g) as [cB|].
      * destruct (IH Hf {| tags := setBCcond g
                                     (conductivity (cell_tf m (tags st) g (faceBackCell m g))
                                                   (cell_tf m (tags st) g cB))
                                     (tags st);
                           out := out st |}) as (st' & -> & Hout).
        exists st'. auto.
      * eexists. split; reflexivity.
Qed.

(** The global index of the [k]-th cell of the iteration is [k], whatever
    the face loop does afterwards. *)
Lemma initProblem_globInd m st (k : nat) c :
  NoDup (cells m) -> cells m !! k = Some c ->
  integer (tagGlobInd (tags (finalState (initProblem m st)))) c = Z.of_nat k.
Proof.
  intros Hnd Hk. unfold initProblem, bind.
  destruct (cellLoop_spec m (cells m) 0%Z st) as (st1 & -> & _ & _ & _ & Hidx).
  rewrite faceLoop_globInd. unfold integer.
  rewrite (Hidx Hnd k c Hk). reflexivity.
Qed.

Lemma initProblem_resolved m st :
  resolved m ->
  exists st',
    initProblem m st = Ret tt st' /\
    out st' = out st /\
    (forall f, f ∈ faces m -> faceBoundary m f = true ->
       tagBCtype (tags st') !! f = Some BC_DIR /\
       tagBCval (tags st') !! f =
         Some (C (faceBarycenter m f).1 (faceBarycenter m f).2)).
Proof.
  intros Hres. unfold initProblem, bind.
  destruct (cellLoop_spec m (cells m) 0%Z st) as (st1 & -> & Hout1 & _).
  destruct (faceLoop_resolved m (faces m) st1 Hres) as (st' & -> & Hout & Hin & _).
  exists st'. split; [reflexivity|]. split; [congruence|exact Hin].
Qed.

Lemma initProblem_unresolved m st f :
  f ∈ faces m -> faceBoundary m f = false -> faceFrontCell m f = None ->
  exists st',
    initProblem m st = Exited 1 st' /\
    out st' = out st ++ [OutInvalidFrontCell].
Proof.
  intros Hf Hb Hfront. unfold initProblem, bind.
  destruct (cellLoop_spec m (cells m) 0%Z st) as (st1 & -> & Hout1 & _).
  destruct (faceLoop_unresolved m (faces m) st1 f Hf Hb Hfront) as (st' & -> & Hout).
  exists st'. split; [reflexivity|congruence].
Qed.

(** Whatever [initProblem] does, it exits with status 1 or not at all. *)
Lemma initProblem_exit_code m st code st' :
  initProblem m st = Exited code st' -> code = 1%Z.
Proof.
  unfold initProblem, bind.
  destruct (cellLoop_spec m (cells m) 0%Z st) as (st1 & -> & _).
  generalize (faces m) st1. clear. intros l.
  induction l as [|f l IH]; intros st1; [discriminate|].
  cbn [forEach]. unfold bind at 1. rewrite initFace_eq.
  destruct (faceBoundary m f); [apply IH|].
  destruct (faceFrontCell m f); [apply IH|]. congruence.
Qed.

(** C6.  For a mesh whose cell iteration visits N distinct cells, the
    global indices that [initProblem] stores are, in the order of the
    iteration, 0, 1, ..., N-1: every cell has one index, inside [0, N),
    no two cells share an index, and every index of [0, N) is taken.
    This holds for any tag data the mesh carried before, and also when the
    face loop exits afterwards. *)
Theorem global_indices_contiguous m st :
  NoDup (cells m) ->
  let glob := integer (tagGlobInd (tags (finalState (initProblem m st)))) in
  let N := Z.of_nat (length (cells m)) in
  glob <$> cells m = seqZ 0 N /\
  (forall c, c ∈ cells m -> (0 <= glob c < N)%Z) /\
  (forall c c', c ∈ cells m -> c' ∈ cells m -> glob c = glob c' -> c = c') /\
  (forall i, (0 <= i < N)%Z -> exists c, c ∈ cells m /\ glob c = i).
Proof.
  intros Hnd glob N.
  assert (Hk : forall (k : nat) c, cells m !! k = Some c -> glob c = Z.of_nat k)
    by (intros k c; apply initProblem_globInd; assumption).
  split; [|split; [|split]].
  - apply list_eq. intros k. rewrite list_lookup_fmap.
    destruct (cells m !! k) as [c|] eqn:Hc; cbn.
    + rewrite (Hk k c Hc). symmetry. apply lookup_seqZ.
      split; [lia|]. apply lookup_lt_Some in Hc. lia.
    + symmetry. apply lookup_seqZ_ge. apply lookup_ge_None in Hc. lia.
  - intros c Hc. apply list_elem_of_lookup in Hc as [k Hc].
    rewrite (Hk k c Hc). apply lookup_lt_Some in Hc. lia.
  - intros c c' Hc Hc' Heq.
    apply list_elem_of_lookup in Hc as [k Hc].
    apply list_elem_of_lookup in Hc' as [k' Hc'].
    rewrite (Hk k c Hc), (Hk k' c' Hc') in Heq.
    apply Nat2Z.inj in Heq. subst k'. congruence.
  - intros i Hi. destruct (lookup_lt_is_Some_2 (cells m) (Z.to_nat i)) as [c Hc]; [lia|].
    exists c. split; [eapply list_elem_of_lookup_2; eassumption|].
    rewrite (Hk _ c Hc). lia.
Qed.

(** C9.  When every internal face resolves its front cell, [initProblem]
    returns and every boundary face then carries the classification
    [BC_DIR] and, as boundary value, [C] at the face barycenter.  In every
    run, returning or exiting, each entry of the tag BC_type is [BC_DIR]
    or was in the tag before: the initializer never writes [BC_NEUM]. *)
Theorem boundary_faces_dirichlet m st :
  (resolved m ->
   exists st',
     initProblem m st = Ret tt st' /\
     forall f, f ∈ faces m -> faceBoundary m f = true ->
       integer (tagBCtype (tags st')) f = BC_DIR /\
       real (tagBCval (tags st')) f =
         C (faceBarycenter m f).1 (faceBarycenter m f).2) /\
  (forall f v,
     tagBCtype (tags (finalState (initProblem m st))) !! f = Some v ->
     v = BC_DIR \/ tagBCtype (tags st) !! f = Some v).
Proof.
  split.
  - intros Hres.
    destruct (initProblem_resolved m st Hres) as (st' & Hrun & _ & Hin).
    exists st'. split; [exact Hrun|]. intros f Hf Hb.
    destruct (Hin f Hf Hb) as [Hty Hval].
    unfold integer, real. rewrite Hty, Hval. auto.
  - intros f v. unfold initProblem, bind.
    destruct (cellLoop_spec m (cells m) 0%Z st) as (st1 & -> & _ & Hbc & _).
    intros Hv. apply faceLoop_BCtype in Hv. rewrite Hbc in Hv. exact Hv.
Qed.

End InitProblem.

Section Assembly.
Context {T : Type} `{Arith T}.
Implicit Types (m : Mesh T) (st : State T) (tg : Tags T)
  (A : gmap (Z * Z) T) (rhs : gmap Z T) (sys : System T).

(** ** Reading an entry after an update *)

Lemma mat_get_add A i j v k l :
  mat_get (mat_add A i j v) k l =
  if decide ((i, j) = (k, l)) then (mat_get A i j + v)%D else mat_get A k l.
Proof.
  unfold mat_add, mat_get at 1. destruct (decide ((i, j) = (k, l))) as [<-|Hne].
  - rewrite lookup_insert_eq. reflexivity.
  - rewrite lookup_insert_ne by assumption. reflexivity.
Qed.

Lemma mat_get_sub A i j v k l :
  mat_get (mat_sub A i j v) k l =
  if decide ((i, j) = (k, l)) then (mat_get A i j - v)%D else mat_get A k l.
Proof.
  unfold mat_sub, mat_get at 1. destruct (decide ((i, j) = (k, l))) as [<-|Hne].
  - rewrite lookup_insert_eq. reflexivity.
  - rewrite lookup_insert_ne by assumption. reflexivity.
Qed.

Lemma vec_get_sub rhs i x k :
  vec_get (vec_sub rhs i x) k =
  if decide (i = k) then (vec_get rhs i - x)%D else vec_get rhs k.
Proof.
  unfold vec_sub, vec_get at 1. destruct (decide (i = k)) as [<-|Hne].
  - rewrite lookup_insert_eq. reflexivity.
  - rewrite lookup_insert_ne by assumption. reflexivity.
Qed.

(** Case analysis on which entry an update hits. *)
Ltac mat_cases :=
  repeat first
    [ rewrite mat_get_add
    | rewrite mat_get_sub
    | match goal with
      | |- context [decide ?P] => destruct (decide P); try (exfalso; congruence)
      end ].

(** ** The loops of the assembler *)

Lemma assembleFace_eq m f sys st :
  assembleFace m f sys st =
  if faceBoundary m f || bool_decide (is_Some (faceFrontCell m f)) then
    Ret (faceContribution m (tags st) sys f) st
  else
    Exited 1 {| tags := tags st; out := out st ++ [OutInvalidFrontCell] |}.
Proof.
  unfold assembleFace, faceContribution, bind, getTags.
  destruct (faceBoundary m f); cbn.
  - destruct (integer (tagBCtype (tags st)) f =? BC_NEUM)%Z; [reflexivity|].
    destruct (integer (tagBCtype (tags st)) f =? BC_DIR)%Z; reflexivity.
  - destruct (faceFrontCell m f); reflexivity.
Qed.

Lemma faceLoop_assembled m (l : list Handle) sys st :
  Forall (fun f => faceBoundary m f = false -> is_Some (faceFrontCell m f)) l ->
  forEach (assembleFace m) l sys st =
  Ret (fold_left (faceContribution m (tags st)) l sys) st.
Proof.
  revert sys. induction l as [|f l IH]; intros sys Hres; [reflexivity|].
  apply Forall_cons in Hres as [Hf Hres].
  cbn [forEach fold_left]. unfold bind at 1. rewrite assembleFace_eq.
  destruct (faceBoundary m f) eqn:Hb; cbn.
  - apply IH, Hres.
  - rewrite bool_decide_eq_true_2 by (apply Hf; reflexivity). apply IH, Hres.
Qed.

Lemma cellLoop_assembled m (l : list Handle) sys st :
  forEach (assembleCell m) l sys st =
  Ret (fold_left (fun s c => sourceCell m (tags st) c s) l sys) st.
Proof.
  revert sys. induction l as [|c l IH]; intros sys; [reflexivity|].
  cbn [forEach fold_left]. unfold bind at 1. apply IH.
Qed.

(** With every internal face resolved the assembler returns the system
    [assembled] and changes neither the tags nor the output. *)
Lemma assemble_resolved m sys st :
  resolved m ->
  assembleGlobalSystem m sys st = Ret (assembled m (tags st) sys) st.
Proof.
  intros Hres. unfold assembleGlobalSystem, bind.
  rewrite (faceLoop_assembled m (faces m) sys st Hres).
  apply cellLoop_assembled.
Qed.

(** The assembler exits with status 1 or not at all; it prints nothing
    but its one message and never changes the tags. *)
Lemma assemble_exit m sys st code st' :
  assembleGlobalSystem m sys st = Exited code st' ->
  code = 1%Z /\ tags st' = tags st /\ out st' = out st ++ [OutInvalidFrontCell].
Proof.
  unfold assembleGlobalSystem, bind.
  destruct (forEach (assembleFace m) (faces m) sys st) as [sys' st1|code1 st1] eqn:Hloop.
  - rewrite cellLoop_assembled. discriminate.
  - intros Heq. injection Heq as -> ->.
    revert sys Hloop. generalize (faces m).
    intros l. induction l as [|f l IH]; intros sys; [discriminate|].
    cbn [forEach]. unfold bind at 1. rewrite assembleFace_eq.
    destruct (faceBoundary m f || bool_decide (is_Some (faceFrontCell m f))).
    + apply IH.
    + intros Heq. injection Heq as <- <-. auto.
Qed.

(** The cell loop adds the source terms to the right-hand side only. *)
Lemma sourceCells_matrix m tg (l : list Handle) sys :
  (fold_left (fun s c => sourceCell m tg c s) l sys).1 = sys.1.
Proof.
  revert sys. induction l as [|c l IH]; intros sys; [reflexivity|].
  cbn [fold_left]. rewrite IH. reflexivity.
Qed.

(** ** Symmetry *)

Lemma symmetric_add_diag A i v : symmetric A -> symmetric (mat_add A i i v).
Proof.
  intros Hs k l. rewrite !mat_get_add.
  destruct (decide ((i, i) = (k, l))) as [E|E], (decide ((i, i) = (l, k))) as [E'|E'];
    try reflexivity; try (exfalso; congruence). apply Hs.
Qed.

Lemma symmetric_sub_diag A i v : symmetric A -> symmetric (mat_sub A i i v).
Proof.
  intros Hs k l. rewrite !mat_get_sub.
  destruct (decide ((i, i) = (k, l))) as [E|E], (decide ((i, i) = (l, k))) as [E'|E'];
    try reflexivity; try (exfalso; congruence). apply Hs.
Qed.

Lemma symmetric_sub_pair A i j v :
  symmetric A -> symmetric (mat_sub (mat_sub A i j v) j i v).
Proof.
  intros Hs. destruct (decide (i = j)) as [->|Hij].
  - apply symmetric_sub_diag, symmetric_sub_diag, Hs.
  - intros k l. rewrite !mat_get_sub.
    destruct (decide ((j, i) = (k, l))) as [E1|E1], (decide ((j, i) = (l, k))) as [E2|E2],
             (decide ((i, j) = (k, l))) as [E3|E3], (decide ((i, j) = (l, k))) as [E4|E4],
             (decide ((i, j) = (j, i))) as [E5|E5];
      try (exfalso; congruence); try reflexivity;
      try (rewrite (Hs j i); reflexivity); try (rewrite (Hs i j); reflexivity).
    apply Hs.
Qed.

Lemma symmetric_faceContribution m tg sys f :
  symmetric sys.1 -> symmetric (faceContribution m tg sys f).1.
Proof.
  intros Hs. unfold faceContribution.
  destruct (faceBoundary m f).
  - destruct (integer (tagBCtype tg) f =? BC_NEUM)%Z; [exact Hs|].
    destruct (integer (tagBCtype tg) f =? BC_DIR)%Z; [|exact Hs].
    cbn. apply symmetric_sub_diag, Hs.
  - destruct (faceFrontCell m f) as [cB|]; [|exact Hs].
    cbn. apply symmetric_add_diag, symmetric_sub_pair, symmetric_add_diag, Hs.
Qed.

Lemma symmetric_faces m tg (l : list Handle) sys :
  symmetric sys.1 -> symmetric (fold_left (faceContribution m tg) l sys).1.
Proof.
  revert sys. induction l as [|f l IH]; intros sys Hs; [exact Hs|].
  cbn [fold_left]. apply IH, symmetric_faceContribution, Hs.
Qed.

Lemma symmetric_empty : symmetric ∅.
Proof. intros i j. reflexivity. Qed.

(** ** Off-diagonal entries *)

Lemma offDiagonal_step m tg sys f i j :
  i <> j ->
  mat_get (faceContribution m tg sys f).1 i j =
  if links m tg i j f
  then (mat_get sys.1 i j - real (tagBCcond tg) f * faceArea m f)%D
  else mat_get sys.1 i j.
Proof.
  intros Hij. unfold faceContribution, links.
  destruct (faceBoundary m f); cbn [negb andb].
  - destruct (integer (tagBCtype tg) f =? BC_NEUM)%Z; [reflexivity|].
    destruct (integer (tagBCtype tg) f =? BC_DIR)%Z; [|reflexivity].
    cbn. rewrite mat_get_sub.
    destruct (decide _) as [E|E]; [exfalso; congruence|reflexivity].
  - destruct (faceFrontCell m f) as [cB|]; [|reflexivity].
    cbn. generalize (integer (tagGlobInd tg) (faceBackCell m f)) (integer (tagGlobInd tg) cB).
    intros a b.
    destruct (Z.eqb_spec a i), (Z.eqb_spec b j), (Z.eqb_spec a j), (Z.eqb_spec b i);
      cbn [andb orb]; try (exfalso; congruence);
      mat_cases; solve [reflexivity | congruence].
Qed.

Lemma offDiagonal_faces m tg (l : list Handle) sys i j :
  i <> j ->
  mat_get (fold_left (faceContribution m tg) l sys).1 i j =
  fold_left (fun acc f => (acc - real (tagBCcond tg) f * faceArea m f)%D)
            (filter (fun f => links m tg i j f = true) l)
            (mat_get sys.1 i j).
Proof.
  intros Hij. revert sys. induction l as [|f l IH]; intros sys; [reflexivity|].
  cbn [fold_left]. rewrite IH, (offDiagonal_step m tg sys f i j Hij).
  rewrite filter_cons. destruct (decide (links m tg i j f = true)) as [E|E].
  - rewrite E. reflexivity.
  - apply not_true_is_false in E. rewrite E. reflexivity.
Qed.


(** What an internal face does to the four entries of its two cells. *)
Lemma internalFace_entries m tg f cB A rhs :
  let t := real (tagBCcond tg) f in
  let idA := integer (tagGlobInd tg) (faceBackCell m f) in
  let idB := integer (tagGlobInd tg) cB in
  idA <> idB ->
  let A' := (internalFace m tg f cB (A, rhs)).1 in
  (internalFace m tg f cB (A, rhs)).2 = rhs /\
  mat_get A' idA idA = (mat_get A idA idA + t * faceArea m f)%D /\
  mat_get A' idB idB = (mat_get A idB idB + t * faceArea m f)%D /\
  mat_get A' idA idB = (mat_get A idA idB - t * faceArea m f)%D /\
  mat_get A' idB idA = (mat_get A idB idA - t * faceArea m f)%D /\
  (forall i j, ~ ((i = idA \/ i = idB) /\ (j = idA \/ j = idB)) ->
               A' !! (i, j) = A !! (i, j)).
Proof.
  intros t idA idB Hne A'. subst A'. unfold internalFace. cbn [fst snd].
  fold t idA idB. generalize (t * faceArea m f)%D. intros v.
  split; [reflexivity|].
  repeat split; try (mat_cases; solve [reflexivity | congruence]).
  intros i j Hij. unfold mat_add, mat_sub.
  rewrite !lookup_insert_ne; [reflexivity| | | |];
    intros E; injection E as <- <-; apply Hij; auto.
Qed.

(** C3 (amended).  An internal face between cells with the distinct global
    indices idA and idB adds [t * Area] to the entries (idA,idA) and
    (idB,idB), subtracts it from (idA,idB) and (idB,idA), and changes
    nothing else.  With every internal face resolved, the assembly returns
    a matrix with [A[i][j] = A[j][i]] for all i, j; an off-diagonal entry
    (i,j) holds zero minus [t * Area] of every internal face between i and
    j, so it is the negative of one face's [t * Area] when that face is
    the only one between its two cells. *)
Theorem internal_face_stencil m st :
  (forall f cB A rhs,
     faceBoundary m f = false -> faceFrontCell m f = Some cB ->
     let t := real (tagBCcond (tags st)) f in
     let idA := integer (tagGlobInd (tags st)) (faceBackCell m f) in
     let idB := integer (tagGlobInd (tags st)) cB in
     idA <> idB ->
     exists A',
       assembleFace m f (A, rhs) st = Ret (A', rhs) st /\
       mat_get A' idA idA = (mat_get A idA idA + t * faceArea m f)%D /\
       mat_get A' idB idB = (mat_get A idB idB + t * faceArea m f)%D /\
       mat_get A' idA idB = (mat_get A idA idB - t * faceArea m f)%D /\
       mat_get A' idB idA = (mat_get A idB idA - t * faceArea m f)%D /\
       (forall i j, ~ ((i = idA \/ i = idB) /\ (j = idA \/ j = idB)) ->
                    A' !! (i, j) = A !! (i, j))) /\
  (resolved m ->
   exists A rhs,
     assembleGlobalSystem m (∅, ∅) st = Ret (A, rhs) st /\
     (forall i j, mat_get A i j = mat_get A j i) /\
     (forall i j, i <> j -> mat_get A i j = offDiagonal m (tags st) i j) /\
     (forall f cB,
        f ∈ faces m -> faceBoundary m f = false -> faceFrontCell m f = Some cB ->
        let t := real (tagBCcond (tags st)) f in
        let idA := integer (tagGlobInd (tags st)) (faceBackCell m f) in
        let idB := integer (tagGlobInd (tags st)) cB in
        idA <> idB ->
        filter (fun g => links m (tags st) idA idB g = true) (faces m) = [f] ->
        mat_get A idA idB = (flit 0 - t * faceArea m f)%D /\
        mat_get A idB idA = (flit 0 - t * faceArea m f)%D)).
Proof.
  split.
  - intros f cB A rhs Hb Hfront t idA idB Hne.
    destruct (internalFace_entries m (tags st) f cB A rhs Hne)
      as (Hrhs & Haa & Hbb & Hab & Hba & Hother).
    exists (internalFace m (tags st) f cB (A, rhs)).1.
    split; [|repeat split; assumption].
    rewrite assembleFace_eq, Hb, Hfront. cbn [orb].
    rewrite bool_decide_eq_true_2 by eauto.
    unfold faceContribution. rewrite Hb, Hfront. reflexivity.
  - intros Hres.
    exists (assembled m (tags st) (∅, ∅)).1, (assembled m (tags st) (∅, ∅)).2.
    assert (Hoff : forall i j, i <> j ->
              mat_get (assembled m (tags st) (∅, ∅)).1 i j = offDiagonal m (tags st) i j).
    { intros i j Hij. unfold assembled. rewrite sourceCells_matrix.
      rewrite (offDiagonal_faces m (tags st) (faces m) (∅, ∅) i j Hij). reflexivity. }
    split; [|split; [|split]].
    + rewrite (assemble_resolved m (∅, ∅) st Hres).
      destruct (assembled m (tags st) (∅, ∅)); reflexivity.
    + unfold assembled. rewrite sourceCells_matrix.
      apply symmetric_faces, symmetric_empty.
    + exact Hoff.
    + intros f cB Hf Hb Hfront t idA idB Hne Honly.
      assert (Hab : mat_get (assembled m (tags st) (∅, ∅)).1 idA idB =
                    (flit 0 - t * faceArea m f)%D).
      { rewrite (Hoff idA idB Hne). unfold offDiagonal. rewrite Honly. reflexivity. }
      split; [exact Hab|].
      unfold assembled in *. rewrite sourceCells_matrix in *.
      rewrite <- Hab. symmetry. apply symmetric_faces, symmetric_empty.
Qed.

End Assembly.

Section ExactArithmetic.
Context {T : Type} `{Arith T} `{!ExactArith T}.
Implicit Types (x y z v : T) (m : Mesh T) (st : State T) (tg : Tags T)
  (A : gmap (Z * Z) T) (sys : System T).

(** ** Consequences of the laws *)

Lemma fadd_0_r x : (x + flit 0 = x)%D.
Proof. rewrite fadd_comm. apply fadd_0_l. Qed.

Lemma fadd_neg_l x : (- x + x = flit 0)%D.
Proof. rewrite fadd_comm. apply fadd_neg_r. Qed.

Lemma fadd_cancel_r x v : ((x + v) + - v = x)%D.
Proof. rewrite <- fadd_assoc, fadd_neg_r. apply fadd_0_r. Qed.

Lemma fadd_cancel_l x v : ((x + - v) + v = x)%D.
Proof. rewrite <- fadd_assoc, fadd_neg_l. apply fadd_0_r. Qed.

Lemma fsub_diag x : (x - x = flit 0)%D.
Proof. rewrite fsub_def. apply fadd_neg_r. Qed.

Lemma fsub_eq_0 x y : (x - y = flit 0)%D -> x = y.
Proof.
  rewrite fsub_def. intros E.
  rewrite <- (fadd_cancel_l x y), E. apply fadd_0_l.
Qed.

Lemma fneg_unique x y : (x + y = flit 0)%D -> y = (- x)%D.
Proof.
  intros E. rewrite <- (fadd_0_l y), <- (fadd_neg_l x), <- fadd_assoc, E.
  apply fadd_0_r.
Qed.

Lemma fneg_neg x : (- - x = x)%D.
Proof. symmetry. apply fneg_unique, fadd_neg_l. Qed.

Lemma fneg_add x y : (- (x + y) = - x + - y)%D.
Proof.
  symmetry. apply fneg_unique.
  rewrite (fadd_comm (- x)%D), fadd_assoc, (fadd_cancel_r x y). apply fadd_neg_r.
Qed.

Lemma fneg_sub x y : (- (x - y) = y - x)%D.
Proof. rewrite !fsub_def, fneg_add, fneg_neg. apply fadd_comm. Qed.

(** ** The stored conductivity and the two sides of a face *)

Lemma conductivity_swap x y : conductivity y x = (- conductivity x y)%D.
Proof.
  unfold conductivity.
  rewrite <- (fneg_sub x y), fdiv_neg_r, (fmul_comm y x). reflexivity.
Qed.

Lemma conductivity_reversed x y : conductivity (- y)%D (- x)%D = conductivity x y.
Proof.
  unfold conductivity. f_equal.
  - rewrite fmul_neg_r, (fmul_comm (- y)%D), fmul_neg_r, fneg_neg. reflexivity.
  - rewrite !fsub_def, fneg_neg. apply fadd_comm.
Qed.

Lemma calc_tf_reversed (D : (T * T) * (T * T)) (n d : T * T) :
  calc_tf D ((- n.1)%D, (- n.2)%D) d = (- calc_tf D n d)%D.
Proof.
  unfold calc_tf. cbn [fst snd].
  rewrite !fmul_neg_r, <- fneg_add. apply fdiv_neg_l.
Qed.

(** ** Row sums *)

Lemma sum_shift (g : Z -> T) (l : list Z) x v :
  fold_left (fun acc j => (acc + g j)%D) l (x + v)%D =
  (fold_left (fun acc j => (acc + g j)%D) l x + v)%D.
Proof.
  revert x. induction l as [|j l IH]; intros x; [reflexivity|].
  cbn [fold_left]. rewrite <- IH. f_equal.
  rewrite <- !fadd_assoc. f_equal. apply fadd_comm.
Qed.

Lemma sum_ext (g g' : Z -> T) (l : list Z) x :
  (forall j, j ∈ l -> g' j = g j) ->
  fold_left (fun acc j => (acc + g' j)%D) l x =
  fold_left (fun acc j => (acc + g j)%D) l x.
Proof.
  revert x. induction l as [|j l IH]; intros x Hg; [reflexivity|].
  cbn [fold_left]. rewrite (Hg j) by left.
  apply IH. intros k Hk. apply Hg. right. exact Hk.
Qed.

Lemma sum_update (g g' : Z -> T) (l : list Z) c v x :
  NoDup l -> c ∈ l ->
  g' c = (g c + v)%D -> (forall j, j <> c -> g' j = g j) ->
  fold_left (fun acc j => (acc + g' j)%D) l x =
  (fold_left (fun acc j => (acc + g j)%D) l x + v)%D.
Proof.
  intros Hnd Hc Hgc Hg. revert x.
  induction l as [|j l IH]; intros x; [inversion Hc|].
  apply NoDup_cons in Hnd as [Hj Hnd]. cbn [fold_left].
  destruct (decide (j = c)) as [->|Hne].
  - rewrite Hgc, fadd_assoc, <- sum_shift. apply sum_ext.
    intros k Hk. apply Hg. intros ->. contradiction.
  - rewrite (Hg j Hne). apply IH; [exact Hnd|].
    apply elem_of_cons in Hc as [->|Hc]; [contradiction|exact Hc].
Qed.

Lemma rowSum_add A r c v i (N : nat) :
  (0 <= c < Z.of_nat N)%Z ->
  rowSum (mat_add A r c v) i N =
  if decide (r = i) then (rowSum A i N + v)%D else rowSum A i N.
Proof.
  intros Hc. unfold rowSum. destruct (decide (r = i)) as [->|Hne].
  - apply sum_update with (c := c).
    + apply NoDup_seqZ.
    + apply elem_of_seqZ. lia.
    + rewrite mat_get_add, decide_True by reflexivity. reflexivity.
    + intros j Hj. rewrite mat_get_add, decide_False by congruence. reflexivity.
  - apply sum_ext. intros j _.
    rewrite mat_get_add, decide_False by congruence. reflexivity.
Qed.

Lemma rowSum_sub A r c v i (N : nat) :
  (0 <= c < Z.of_nat N)%Z ->
  rowSum (mat_sub A r c v) i N =
  if decide (r = i) then (rowSum A i N + - v)%D else rowSum A i N.
Proof.
  intros Hc. unfold rowSum. destruct (decide (r = i)) as [->|Hne].
  - apply sum_update with (c := c).
    + apply NoDup_seqZ.
    + apply elem_of_seqZ. lia.
    + rewrite mat_get_sub, decide_True by reflexivity. apply fsub_def.
    + intros j Hj. rewrite mat_get_sub, decide_False by congruence. reflexivity.
  - apply sum_ext. intros j _.
    rewrite mat_get_sub, decide_False by congruence. reflexivity.
Qed.

(** An internal face leaves every row sum as it was; a Dirichlet face
    adds [- t * Area] to the row sum of its cell. *)
Lemma rowSum_step m tg sys f i (N : nat) :
  (0 <= integer (tagGlobInd tg) (faceBackCell m f) < Z.of_nat N)%Z ->
  match faceFrontCell m f with
  | Some cB => (0 <= integer (tagGlobInd tg) cB < Z.of_nat N)%Z
  | None => True
  end ->
  rowSum (faceContribution m tg sys f).1 i N =
  if dirichletOf m tg i f
  then (rowSum sys.1 i N + - (cell_tf m tg f (faceBackCell m f) * faceArea m f))%D
  else rowSum sys.1 i N.
Proof.
  intros Ha Hb. unfold faceContribution, dirichletOf.
  destruct (faceBoundary m f); cbn [andb].
  - destruct (Z.eqb_spec (integer (tagBCtype tg) f) BC_NEUM) as [E|E].
    + rewrite E. reflexivity.
    + destruct (integer (tagBCtype tg) f =? BC_DIR)%Z; [|reflexivity].
      cbn [andb dirichletFace fst]. rewrite rowSum_sub by exact Ha.
      destruct (Z.eqb_spec (integer (tagGlobInd tg) (faceBackCell m f)) i) as [E'|E'].
      * rewrite decide_True by exact E'. reflexivity.
      * rewrite decide_False by exact E'. reflexivity.
  - destruct (faceFrontCell m f) as [cB|]; [|reflexivity].
    cbn [internalFace fst].
    rewrite rowSum_add, rowSum_sub, rowSum_sub, rowSum_add by assumption.
    generalize (real (tagBCcond tg) f * faceArea m f)%D. intros v.
    repeat destruct (decide _); rewrite ?fadd_cancel_r, ?fadd_cancel_l; reflexivity.
Qed.

Lemma rowSum_faces m tg (l : list Handle) sys i (N : nat) :
  Forall (fun f =>
            (0 <= integer (tagGlobInd tg) (faceBackCell m f) < Z.of_nat N)%Z /\
            match faceFrontCell m f with
            | Some cB => (0 <= integer (tagGlobInd tg) cB < Z.of_nat N)%Z
            | None => True
            end) l ->
  rowSum (fold_left (faceContribution m tg) l sys).1 i N =
  fold_left (fun acc f =>
               (acc + - (cell_tf m tg f (faceBackCell m f) * faceArea m f))%D)
            (filter (fun f => dirichletOf m tg i f = true) l)
            (rowSum sys.1 i N).
Proof.
  revert sys. induction l as [|f l IH]; intros sys Hin; [reflexivity|].
  apply Forall_cons in Hin as [[Ha Hb] Hin].
  cbn [fold_left]. rewrite (IH _ Hin), (rowSum_step m tg sys f i N Ha Hb).
  rewrite filter_cons. destruct (decide (dirichletOf m tg i f = true)) as [E|E].
  - rewrite E. reflexivity.
  - apply not_true_is_false in E. rewrite E. reflexivity.
Qed.

Lemma rowSum_empty i (N : nat) : rowSum (∅ : gmap (Z * Z) T) i N = flit 0.
Proof.
  unfold rowSum. generalize (seqZ 0 (Z.of_nat N)). intros l.
  induction l as [|j l IH]; [reflexivity|].
  cbn [fold_left]. replace (mat_get ∅ i j) with (flit 0 : T).
  - rewrite fadd_0_r. exact IH.
  - unfold mat_get. rewrite lookup_empty. reflexivity.
Qed.

(** In exact arithmetic, with every internal face resolved and the global
    indices of all cells next to a face in [0, N), every row sum of the
    assembled matrix is the sum of the Dirichlet contributions to its
    diagonal entry: what the internal faces add to a row cancels. *)
Lemma assembled_row_sums m tg (N : nat) i :
  indicesBelow m tg (Z.of_nat N) ->
  rowSum (assembled m tg (∅, ∅)).1 i N = boundaryDiagonal m tg i.
Proof.
  intros Hin. unfold assembled. rewrite sourceCells_matrix.
  rewrite (rowSum_faces m tg (faces m) (∅, ∅) i N Hin).
  cbn [fst]. rewrite rowSum_empty. reflexivity.
Qed.

Lemma sum_filter_ext (p q : Handle -> bool) (g g' : Handle -> T)
    (l : list Handle) x :
  (forall f, f ∈ l -> p f = q f) ->
  (forall f, f ∈ l -> p f = true -> g f = g' f) ->
  fold_left (fun acc f => (acc + g f)%D) (filter (fun f => p f = true) l) x =
  fold_left (fun acc f => (acc + g' f)%D) (filter (fun f => q f = true) l) x.
Proof.
  revert x. induction l as [|f l IH]; intros x Hpq Hg; [reflexivity|].
  rewrite !filter_cons.
  assert (Hf : f ∈ f :: l) by left.
  assert (IH' : forall y,
    fold_left (fun acc f => (acc + g f)%D) (filter (fun f => p f = true) l) y =
    fold_left (fun acc f => (acc + g' f)%D) (filter (fun f => q f = true) l) y).
  { intros y. apply IH; intros f' Hf'; [apply Hpq|apply Hg]; right; exact Hf'. }
  pose proof (Hpq f Hf) as Epq. pose proof (Hg f Hf) as Eg.
  destruct (decide (p f = true)) as [Ep|Ep], (decide (q f = true)) as [Eq|Eq].
  - cbn [fold_left]. rewrite (Eg Ep). apply IH'.
  - exfalso. congruence.
  - exfalso. congruence.
  - apply IH'.
Qed.

End ExactArithmetic.

Section Balance.
Context {T : Type} `{Arith T} `{Libm T} `{!ExactArith T}.
Implicit Types (m : Mesh T) (st : State T).

(** C5 (amended).  In exact arithmetic, for a mesh whose cell iteration
    has no repeats, whose internal faces all resolve their front cell and whose
    faces lie between cells of the mesh: [initProblem] and the assembly
    return, and for every cell the sum of the entries of its matrix row
    over all N columns (the diagonal entry and the off-diagonal ones) is
    the sum of the contributions [- t * Area] of the boundary faces of
    that cell.  What the internal faces add to a row cancels in its sum. *)
Theorem row_sums_balance m st :
  NoDup (cells m) ->
  resolved m ->
  cellsListed m ->
  exists st1 A rhs,
    initProblem m st = Ret tt st1 /\
    assembleGlobalSystem m (∅, ∅) st1 = Ret (A, rhs) st1 /\
    forall c, c ∈ cells m ->
      rowSum A (integer (tagGlobInd (tags st1)) c) (length (cells m)) =
      cellBoundarySum m (tags st1) c.
Proof.
  intros Hnd Hres Hlisted.
  destruct (initProblem_resolved m st Hres) as (st1 & Hinit & _ & Hbc).
  set (glob := integer (tagGlobInd (tags st1))).
  assert (Hglob : forall (k : nat) c, cells m !! k = Some c -> glob c = Z.of_nat k).
  { intros k c Hk. pose proof (initProblem_globInd m st k c Hnd Hk) as E.
    rewrite Hinit in E. exact E. }
  assert (Hrange : forall c, c ∈ cells m ->
            (0 <= glob c < Z.of_nat (length (cells m)))%Z).
  { intros c Hc. apply list_elem_of_lookup in Hc as [k Hk].
    rewrite (Hglob k c Hk). apply lookup_lt_Some in Hk. lia. }
  assert (Hinj : forall c c', c ∈ cells m -> c' ∈ cells m -> glob c = glob c' -> c = c').
  { intros c c' Hc Hc' E.
    apply list_elem_of_lookup in Hc as [k Hk].
    apply list_elem_of_lookup in Hc' as [k' Hk'].
    rewrite (Hglob k c Hk), (Hglob k' c' Hk') in E.
    apply Nat2Z.inj in E. subst k'. congruence. }
  assert (Hin : indicesBelow m (tags st1) (Z.of_nat (length (cells m)))).
  { unfold indicesBelow. unfold cellsListed in Hlisted.
    eapply Forall_impl; [exact Hlisted|]. cbn beta.
    intros f [Hback Hfront]. split; [apply Hrange, Hback|].
    destruct (faceFrontCell m f) as [cB|]; [apply Hrange, Hfront|exact I]. }
  exists st1, (assembled m (tags st1) (∅, ∅)).1, (assembled m (tags st1) (∅, ∅)).2.
  split; [exact Hinit|]. split.
  - rewrite (assemble_resolved m (∅, ∅) st1 Hres).
    destruct (assembled m (tags st1) (∅, ∅)); reflexivity.
  - intros c Hc.
    rewrite (assembled_row_sums m (tags st1) (length (cells m)) (glob c) Hin).
    unfold boundaryDiagonal, cellBoundarySum.
    apply (sum_filter_ext
             (dirichletOf m (tags st1) (glob c)) (boundaryOf m c)
             (fun f => (- (cell_tf m (tags st1) f (faceBackCell m f) * faceArea m f))%D)
             (fun f => (- (cell_tf m (tags st1) f c * faceArea m f))%D)).
    + intros f Hf. unfold dirichletOf, boundaryOf.
      destruct (faceBoundary m f) eqn:Hb; [|reflexivity]. cbn [andb].
      destruct (Hbc f Hf Hb) as [Hty _]. unfold integer at 1. rewrite Hty.
      cbn [default]. rewrite Z.eqb_refl. cbn [andb]. fold glob.
      unfold cellsListed in Hlisted. rewrite Forall_forall in Hlisted.
      destruct (Hlisted f Hf) as [Hback _].
      destruct (Z.eqb_spec (glob (faceBackCell m f)) (glob c)) as [E|E].
      * rewrite bool_decide_eq_true_2; [reflexivity|]. apply Hinj; assumption.
      * rewrite bool_decide_eq_false_2; [reflexivity|]. intros E'. apply E. congruence.
    + intros f Hf Hp. unfold dirichletOf in Hp.
      apply andb_prop in Hp as [Hp Hg]. apply andb_prop in Hp as [Hb _].
      apply Z.eqb_eq in Hg. fold glob in Hg.
      unfold cellsListed in Hlisted. rewrite Forall_forall in Hlisted.
      destruct (Hlisted f Hf) as [Hback _].
      rewrite (Hinj _ _ Hback Hc Hg). reflexivity.
Qed.

End Balance.

Section Transmissibility.
Context {T : Type} `{Arith T}.

(** C2.  For every tensor [D], normal [n] and displacement [d] (symmetric,
    unit, non-zero or not), [calc_tf D n d] is the inner product of the
    matrix-vector product [D d] with [n], divided by the inner product of
    [d] with itself, computed with the operations in this order. *)
Theorem calc_tf_contract (D : (T * T) * (T * T)) (n d : T * T) :
  calc_tf D n d = tf_contract D n d /\
  tf_contract D n d =
    (((D.1.1 * d.1 + D.1.2 * d.2) * n.1 + (D.2.1 * d.1 + D.2.2 * d.2) * n.2)
     / (d.1 * d.1 + d.2 * d.2))%D.
Proof.
  destruct D as [[d00 d01] [d10 d11]], n as [n0 n1], d as [x y].
  unfold calc_tf, tf_contract, dot, matVec. cbn [fst snd].
  split; reflexivity.
Qed.

End Transmissibility.

Section Driver.
Context {T : Type} `{Arith T} `{Libm T} `{LinearSolver T}.
Implicit Types (m : Mesh T) (st : State T).

Lemma forEach_app {X S} (body : X -> S -> M S) (l1 l2 : list X) (acc : S) st :
  forEach body (l1 ++ l2) acc st =
  match forEach body l1 acc st with
  | Ret acc' st' => forEach body l2 acc' st'
  | Exited code st' => Exited code st'
  end.
Proof.
  revert acc st. induction l1 as [|x l1 IH]; intros acc st; [reflexivity|].
  cbn [app forEach]. unfold bind.
  destruct (body x acc st) as [acc' st'|code st']; [apply IH|reflexivity].
Qed.

(** The last loop of [run] always runs to its end and prints nothing. *)
Lemma writeBack_returns m sol (l : list Handle) norms st :
  exists norms' st',
    forEach (writeBackCell m sol) l norms st = Ret norms' st' /\
    out st' = out st.
Proof.
  revert norms st. induction l as [|c l IH]; intros norms st.
  - exists norms, st. split; reflexivity.
  - cbn [forEach]. unfold bind at 1.
    unfold writeBackCell at 1, bind, getTags, modifyTags, ret. cbn.
    edestruct IH as (norms' & st' & Hrun & Hout).
    exists norms', st'. split; [exact Hrun|exact Hout].
Qed.

Lemma run_resolved m st :
  resolved m ->
  let sys := assembled m (tags st) (∅, ∅) in
  let r := solve sys.1 sys.2 in
  if solved r then
    exists st' normC normL2,
      run m st = Ret tt st' /\
      out st' = out st ++ report m st ++
                [OutErrorC normC; OutErrorL2 normL2; CallSave "res.pvtk"]
  else
    run m st =
    Exited 1 {| tags := tags st;
                out := out st ++ report m st ++ [OutSolverFailed (reason r)] |}.
Proof.
  intros Hres sys r.
  pose proof (@List.app_assoc (Event T)) as Hassoc.
  assert (Hstart :
    run m st =
    (if negb (solved r) then
       bind (emit (OutSolverFailed (reason r))) (fun _ => exit 1)
     else
       bind (forEach (writeBackCell m (solution r)) (cells m) (flit 0, flit 0))
            (fun norms =>
               bind (emit (OutErrorC norms.1))
                    (fun _ => bind (emit (OutErrorL2 norms.2))
                                   (fun _ => emit (CallSave "res.pvtk")))))
      {| tags := tags st; out := out st ++ report m st |}).
  { unfold run. unfold bind at 1. unfold emit at 1.
    unfold bind at 1. rewrite (assemble_resolved m _ _ Hres). cbn [tags out].
    fold sys. unfold bind at 1. unfold emit at 1. cbn [tags out].
    unfold bind at 1. unfold emit at 1. cbn [tags out].
    unfold bind at 1. unfold emit at 1. cbn [tags out]. fold r.
    unfold report. fold sys r. rewrite <- !Hassoc. reflexivity. }
  rewrite Hstart. clear Hstart.
  destruct (solved r); cbn [negb].
  - unfold bind at 1.
    edestruct (writeBack_returns m (solution r) (cells m) (flit 0, flit 0))
      as (norms & st' & Hrun & Hout).
    rewrite Hrun. eexists _, norms.1, norms.2. split; [reflexivity|].
    cbn. rewrite Hout. cbn. rewrite <- !Hassoc. reflexivity.
  - unfold bind, emit, exit. cbn. rewrite <- !Hassoc. reflexivity.
Qed.

Lemma run_exit_code m st code st' :
  run m st = Exited code st' -> code = 1%Z.
Proof.
  unfold run. unfold bind at 1. unfold emit at 1. unfold bind at 1.
  destruct (assembleGlobalSystem m (∅, ∅) _) as [sys st1|code1 st1] eqn:Hasm.
  - unfold bind at 1. unfold emit at 1.
    unfold bind at 1. unfold emit at 1.
    unfold bind at 1. unfold emit at 1. cbn [tags out].
    destruct (solved (solve sys.1 sys.2)); cbn [negb].
    + unfold bind at 1.
      edestruct (writeBack_returns m (solution (solve sys.1 sys.2)) (cells m)
                   (flit 0, flit 0)) as (norms & st2 & Hrun & Hout).
      rewrite Hrun. discriminate.
    + unfold bind, emit, exit. congruence.
  - apply assemble_exit in Hasm as [-> _]. congruence.
Qed.

Lemma processMesh_exit_code (loaded : Mesh T * Tags T) st code st' :
  processMesh loaded tt st = Exited code st' -> code = 1%Z.
Proof.
  unfold processMesh. unfold bind at 1. unfold modifyTags at 1. unfold bind at 1.
  destruct (initProblem loaded.1 _) as [[] st1|code1 st1] eqn:Hinit.
  - unfold bind at 1.
    destruct (run loaded.1 st1) as [[] st2|code2 st2] eqn:Hrun.
    + discriminate.
    + apply run_exit_code in Hrun. congruence.
  - apply initProblem_exit_code in Hinit. congruence.
Qed.

Lemma processLoop_exit_code (l : list (Mesh T * Tags T)) st code st' :
  forEach processMesh l tt st = Exited code st' -> code = 1%Z.
Proof.
  revert st. induction l as [|x l IH]; intros st; [discriminate|].
  cbn [forEach]. unfold bind at 1.
  destruct (processMesh x tt st) as [[] st1|code1 st1] eqn:Hx.
  - apply IH.
  - apply processMesh_exit_code in Hx. congruence.
Qed.

Lemma processMesh_unresolved m tg0 st f :
  f ∈ faces m -> faceBoundary m f = false -> faceFrontCell m f = None ->
  exists st',
    processMesh (m, tg0) tt st = Exited 1 st' /\
    out st' = out st ++ [OutInvalidFrontCell].
Proof.
  intros Hf Hb Hfront.
  unfold processMesh. unfold bind at 1. unfold modifyTags at 1. unfold bind at 1.
  cbn [fst snd].
  destruct (initProblem_unresolved m {| tags := tg0; out := out st |} f Hf Hb Hfront)
    as (st' & -> & Hout).
  exists st'. split; [reflexivity|exact Hout].
Qed.

(** C7.  If some internal face of the mesh has no front cell, then
    [initProblem] prints "Invalid FrontCell!" and exits with status 1; the
    round of [main] for this mesh ends there, with nothing else printed,
    so [run] is never entered: no size line, no assembly, no call of the
    solver.  [main] on this mesh alone returns status 1 with that single
    line, and [main] on any list of meshes containing it returns
    status 1. *)
Theorem invalid_front_cell_fatal m st f :
  f ∈ faces m ->
  faceBoundary m f = false ->
  faceFrontCell m f = None ->
  (exists st', initProblem m st = Exited 1 st' /\
               out st' = out st ++ [OutInvalidFrontCell]) /\
  (forall tg0, exists st', processMesh (m, tg0) tt st = Exited 1 st' /\
                           out st' = out st ++ [OutInvalidFrontCell]) /\
  (forall prog tg0, main prog [(m, tg0)] = (1%Z, [OutInvalidFrontCell])) /\
  (forall prog tg0 before after,
     (main prog (before ++ (m, tg0) :: after)).1 = 1%Z).
Proof.
  intros Hf Hb Hfront. split; [|split; [|split]].
  - apply (initProblem_unresolved m st f Hf Hb Hfront).
  - intros tg0. apply (processMesh_unresolved m tg0 st f Hf Hb Hfront).
  - intros prog tg0. unfold main. cbn [forEach]. unfold bind at 1.
    destruct (processMesh_unresolved m tg0 {| tags := emptyTags; out := [] |} f Hf Hb Hfront)
      as (st' & -> & Hout).
    rewrite Hout. reflexivity.
  - intros prog tg0 before after. unfold main.
    destruct (before ++ (m, tg0) :: after) as [|x l] eqn:Hl;
      [destruct before; discriminate|].
    rewrite <- Hl, forEach_app.
    destruct (forEach processMesh before tt _) as [[] st1|code st1] eqn:Hbefore.
    + cbn [forEach]. unfold bind at 1.
      destruct (processMesh_unresolved m tg0 st1 f Hf Hb Hfront) as (st' & -> & _).
      reflexivity.
    + apply processLoop_exit_code in Hbefore. subst code. reflexivity.
Qed.

(** C8.  With every internal face resolved, [run] assembles the system,
    calls the solver and prints its iteration count and its residual,
    whatever the solver reports.  If the solver reports failure, [run]
    prints the reason and exits with status 1: the tags are as they were
    before [run] (no solution value is written to any cell) and no error
    norm is computed or printed.  If it reports success, [run] returns
    after printing the two norms and saving the mesh. *)
Theorem solver_failure_fatal m st :
  resolved m ->
  let sys := assembled m (tags st) (∅, ∅) in
  let r := solve sys.1 sys.2 in
  let printed := [OutN (to_unsigned (Z.of_nat (length (cells m))));
                  CallSolve sys.1 sys.2;
                  OutIterations (iterations r);
                  OutResidual (residual r)] in
  assembleGlobalSystem m (∅, ∅) st = Ret sys st /\
  (exists rest, out (finalState (run m st)) = out st ++ printed ++ rest) /\
  (solved r = false ->
   run m st =
   Exited 1 {| tags := tags st;
               out := out st ++ printed ++ [OutSolverFailed (reason r)] |}) /\
  (solved r = true ->
   exists st' normC normL2,
     run m st = Ret tt st' /\
     out st' = out st ++ printed ++
               [OutErrorC normC; OutErrorL2 normL2; CallSave "res.pvtk"]).
Proof.
  intros Hres sys r printed.
  pose proof (run_resolved m st Hres) as Hrun. cbv zeta in Hrun.
  change (report m st) with printed in Hrun. fold sys r in Hrun.
  split; [apply assemble_resolved, Hres|].
  destruct (solved r).
  - destruct Hrun as (st' & normC & normL2 & Hrun & Hout).
    split; [|split; [discriminate|]].
    + rewrite Hrun. cbn [finalState]. rewrite Hout. eauto.
    + intros _. eauto.
  - split; [|split; [|discriminate]].
    + rewrite Hrun. cbn [finalState out]. eauto.
    + intros _. exact Hrun.
Qed.

End Driver.

(** ** Binary64 arithmetic

    What holds of the stored conductivity in the arithmetic the program
    runs, from the specification of the primitive operations. *)

Lemma binary_round_aux_opp s m e l :
  SFopp (binary_round_aux prec emax s m e l) =
  binary_round_aux prec emax (negb s) m e l.
Proof.
  unfold binary_round_aux.
  destruct (shr_fexp prec emax m e l) as [mrs' e'].
  destruct (shr_fexp prec emax _ e' loc_Exact) as [mrs'' e''].
  destruct (shr_m mrs''); try reflexivity.
  destruct (Z.leb e'' (emax - prec)); reflexivity.
Qed.

Lemma binary_round_opp s m e :
  SFopp (binary_round prec emax s m e) = binary_round prec emax (negb s) m e.
Proof.
  unfold binary_round. destruct (shl_align m e _) as [mz ez].
  apply binary_round_aux_opp.
Qed.

Lemma SF64mul_comm x y : SF64mul x y = SF64mul y x.
Proof.
  unfold SF64mul, SFmul.
  destruct x as [sx|sx| |sx mx ex], y as [sy|sy| |sy my ey]; try reflexivity;
    try (rewrite (xorb_comm sx sy); reflexivity).
  rewrite (xorb_comm sx sy), (Pos.mul_comm mx my), (Z.add_comm ex ey). reflexivity.
Qed.

(** Unless the difference is a zero, the difference the other way round is
    its negation. *)
Lemma SF64sub_antisym x y :
  (forall s, SF64sub x y <> S754_zero s) ->
  SF64sub y x = SFopp (SF64sub x y).
Proof.
  unfold SF64sub, SFsub.
  destruct x as [sx|sx| |sx mx ex], y as [sy|sy| |sy my ey]; cbn [SFopp];
    try reflexivity;
    try (destruct sx, sy; cbn; intros Hz; try reflexivity;
         exfalso; eapply Hz; reflexivity).
  rewrite (Z.min_comm ey ex).
  set (a := cond_Zopp sx (Zpos (fst (shl_align mx ex (Z.min ex ey))))).
  set (b := cond_Zopp sy (Zpos (fst (shl_align my ey (Z.min ex ey))))).
  replace (b - a)%Z with (- (a - b))%Z by lia.
  destruct (a - b)%Z as [|p|p]; cbn [Z.opp binary_normalize].
  - intros Hz. exfalso. eapply Hz. reflexivity.
  - intros _. rewrite binary_round_opp. reflexivity.
  - intros _. rewrite binary_round_opp. reflexivity.
Qed.

Lemma SF64div_opp_r x y : SF64div x (SFopp y) = SFopp (SF64div x y).
Proof.
  unfold SF64div, SFdiv.
  destruct x as [sx|sx| |sx mx ex], y as [sy|sy| |sy my ey]; cbn [SFopp];
    try reflexivity; try (destruct sx, sy; reflexivity).
  destruct (SFdiv_core_binary prec emax (Zpos mx) ex (Zpos my) ey) as [[mz ez] lz].
  rewrite binary_round_aux_opp. destruct sx, sy; reflexivity.
Qed.

(** In binary64, whenever tfA - tfB is not a zero, exchanging tfA and tfB
    in the stored formula gives exactly the negated value. *)
Lemma binary64_conductivity_swap (tfA tfB : float) :
  (tfA - tfB)%float <> 0%float ->
  (tfA - tfB)%float <> (-0)%float ->
  conductivity tfB tfA = (- conductivity tfA tfB)%float.
Proof.
  intros Hpos Hneg. unfold conductivity. cbn [fmul fdiv fsub binary64].
  apply Prim2SF_inj.
  rewrite opp_spec, !div_spec, !mul_spec, !sub_spec.
  rewrite (SF64mul_comm (Prim2SF tfB) (Prim2SF tfA)).
  rewrite (SF64sub_antisym (Prim2SF tfA) (Prim2SF tfB)); [apply SF64div_opp_r|].
  intros s Hz. rewrite <- sub_spec in Hz.
  destruct s; [apply Hneg|apply Hpos]; apply Prim2SF_inj; rewrite Hz; reflexivity.
Qed.

(** In binary64, for equal finite transmissibilities the divisor is +0 and
    the stored value is an infinity or a NaN. *)
Lemma binary64_conductivity_equal (t : float) :
  t <> infinity -> t <> neg_infinity -> t <> nan ->
  (t - t)%float = 0%float /\
  (conductivity t t = infinity \/ conductivity t t = nan).
Proof.
  intros Hinf Hninf Hnan.
  assert (Hfin : match Prim2SF t with
                 | S754_zero _ | S754_finite _ _ _ => True
                 | _ => False
                 end).
  { destruct (Prim2SF t) as [s|s| |s m e] eqn:Ht; try exact I.
    - destruct s; [apply Hninf|apply Hinf]; apply Prim2SF_inj; rewrite Ht; reflexivity.
    - apply Hnan. apply Prim2SF_inj. rewrite Ht. reflexivity. }
  assert (Hsub : Prim2SF (t - t)%float = S754_zero false).
  { rewrite sub_spec. unfold SF64sub, SFsub.
    destruct (Prim2SF t) as [s|s| |s m e]; try contradiction.
    - destruct s; reflexivity.
    - rewrite Z.sub_diag. reflexivity. }
  split; [apply Prim2SF_inj; rewrite Hsub; reflexivity|].
  unfold conductivity. cbn [fmul fdiv fsub binary64].
  assert (Hdiv : Prim2SF (t * t / (t - t))%float = S754_infinity false \/
                 Prim2SF (t * t / (t - t))%float = S754_nan).
  { rewrite div_spec, Hsub, mul_spec. unfold SF64mul, SFmul, SF64div, SFdiv.
    destruct (Prim2SF t) as [s|s| |s m e]; try contradiction.
    - right. reflexivity.
    - rewrite xorb_nilpotent. unfold binary_round_aux.
      destruct (shr_fexp prec emax _ _ loc_Exact) as [mrs' e'].
      destruct (shr_fexp prec emax _ e' loc_Exact) as [mrs'' e''].
      destruct (shr_m mrs''); [right; reflexivity| |right; reflexivity].
      destruct (Z.leb e'' (emax - prec)); left; reflexivity. }
  destruct Hdiv as [Hd|Hd]; [left|right]; apply Prim2SF_inj; rewrite Hd; reflexivity.
Qed.

Section Conductivity.
Context {T : Type} `{Arith T} `{Libm T}.
Implicit Types (m : Mesh T) (st : State T).

(** C1 (amended).  For an internal face with back cell cA and front cell
    cB, [initProblem] stores [tfA * tfB / (tfA - tfB)].  In exact
    arithmetic, exchanging tfA and tfB in this formula negates it; turning
    the face around (front and back cell exchanged, unit normal negated)
    negates both one-sided transmissibilities and leaves the stored value,
    and the whole step of the face loop, as it was.  In binary64, too,
    exchanging tfA and tfB gives exactly the negated value whenever
    tfA - tfB is not a zero. *)
Theorem conductivity_side_symmetry m st f cB :
  faceBoundary m f = false ->
  faceFrontCell m f = Some cB ->
  let cA := faceBackCell m f in
  let tfA := cell_tf m (tags st) f cA in
  let tfB := cell_tf m (tags st) f cB in
  let m' := reverseFace m f cB in
  initFace m f tt st =
    Ret tt {| tags := setBCcond f (conductivity tfA tfB) (tags st); out := out st |} /\
  (ExactArith T ->
   conductivity tfB tfA = (- conductivity tfA tfB)%D /\
   cell_tf m' (tags st) f cB = (- tfB)%D /\
   cell_tf m' (tags st) f cA = (- tfA)%D /\
   initFace m' f tt st = initFace m f tt st) /\
  (forall a b : float,
     (a - b)%float <> 0%float -> (a - b)%float <> (-0)%float ->
     conductivity b a = (- conductivity a b)%float).
Proof.
  intros Hb Hfront cA tfA tfB m'.
  split; [rewrite initFace_eq, Hb, Hfront; reflexivity|].
  split; [|exact binary64_conductivity_swap].
  intros Hexact.
  assert (Hrev : forall c, cell_tf m' (tags st) f c = (- cell_tf m (tags st) f c)%D).
  { intros c. unfold cell_tf, m', reverseFace.
    cbn [faceUnitNormal faceBarycenter cellBarycenter].
    destruct (decide (f = f)) as [_|E]; [|contradiction]. apply calc_tf_reversed. }
  split; [apply conductivity_swap|]. split; [apply Hrev|]. split; [apply Hrev|].
  rewrite !initFace_eq, Hb, Hfront.
  assert (Hb' : faceBoundary m' f = false) by exact Hb.
  assert (Hfront' : faceFrontCell m' f = Some cA)
    by (unfold m', reverseFace; cbn [faceFrontCell];
        destruct (decide (f = f)) as [_|E]; [reflexivity|contradiction]).
  assert (Hback' : faceBackCell m' f = cB)
    by (unfold m', reverseFace; cbn [faceBackCell];
        destruct (decide (f = f)) as [_|E]; [reflexivity|contradiction]).
  rewrite Hb', Hfront', Hback', !Hrev. fold cA tfA tfB.
  rewrite conductivity_reversed. reflexivity.
Qed.

(** C10.  For an internal face with a front cell the step of the face loop
    always returns: it stores [tfA * tfB / (tfA - tfB)] whatever the two
    transmissibilities are, with no test of the divisor.  In exact
    arithmetic the divisor is zero exactly when tfA = tfB, and then the
    stored value is the result of a division by zero.  In binary64 equal
    finite transmissibilities give the divisor +0, and the value stored is
    an infinity or a NaN. *)
Theorem conductivity_unguarded m st f cB :
  faceBoundary m f = false ->
  faceFrontCell m f = Some cB ->
  let tfA := cell_tf m (tags st) f (faceBackCell m f) in
  let tfB := cell_tf m (tags st) f cB in
  initFace m f tt st =
    Ret tt {| tags := setBCcond f (tfA * tfB / (tfA - tfB))%D (tags st);
              out := out st |} /\
  (ExactArith T ->
   ((tfA - tfB)%D = flit 0 <-> tfA = tfB) /\
   (tfA = tfB ->
    initFace m f tt st =
      Ret tt {| tags := setBCcond f (tfA * tfA / flit 0)%D (tags st);
                out := out st |})) /\
  (forall t : float,
     t <> infinity -> t <> neg_infinity -> t <> nan ->
     (t - t)%float = 0%float /\
     (conductivity t t = infinity \/ conductivity t t = nan)).
Proof.
  intros Hb Hfront tfA tfB.
  assert (Hstep : initFace m f tt st =
    Ret tt {| tags := setBCcond f (tfA * tfB / (tfA - tfB))%D (tags st);
              out := out st |})
    by (rewrite initFace_eq, Hb, Hfront; reflexivity).
  split; [exact Hstep|]. split; [|exact binary64_conductivity_equal].
  intros Hexact. split.
  - split; [apply fsub_eq_0|]. intros ->. apply fsub_diag.
  - intros E. rewrite Hstep, <- E, fsub_diag. reflexivity.
Qed.

End Conductivity.

(** ** Rational arithmetic is exact *)

Lemma rational_exact : ExactArith Qc.
Proof.
  split; cbn [flit fadd fsub fmul fdiv fneg rational]; intros.
  - ring.
  - ring.
  - change (Q2Qc (inject_Z 0)) with 0%Qc. ring.
  - change (Q2Qc (inject_Z 0)) with 0%Qc. ring.
  - ring.
  - ring.
  - ring.
  - unfold Qcdiv. ring.
  - destruct (Qc_eq_dec y 0%Qc) as [->|Hy].
    + unfold Qcdiv.
      replace (- 0)%Qc with 0%Qc by (apply Qc_is_canon; reflexivity).
      replace (/ 0)%Qc with 0%Qc by (apply Qc_is_canon; reflexivity). ring.
    + field. split; [exact Hy|]. intros E. apply Hy.
      rewrite <- (Qcopp_involutive y), E. apply Qc_is_canon. reflexivity.
Qed.

#[global] Existing Instance rational_exact.

(** ** Sample runs *)

(** Decides [resolved] on a mesh with an explicit list of faces. *)
Ltac solve_resolved :=
  unfold resolved; cbn [faces twoSquares];
  repeat (apply Forall_cons; split;
    [intros Hb; first [eexists; reflexivity | cbv in Hb; discriminate Hb]|]);
  constructor.

(** Two binary64 numbers with different bit patterns are different. *)
Ltac float_neq :=
  let E := fresh "E" in
  intros E; apply (f_equal Prim2SF) in E; vm_compute in E; discriminate E.

(** Witness of C6: the two squares have two distinct cells, numbered 0, 1. *)
Lemma global_indices_contiguous_witness :
  NoDup (cells (twoSquares (T := float))) /\
  integer (tagGlobInd (tags (finalState (initProblem twoSquares (freshState (T := float))))))
    <$> cells twoSquares = [0%Z; 1%Z].
Proof.
  assert (Hnd : NoDup (cells (twoSquares (T := float))))
    by (apply (bool_decide_unpack _); vm_compute; exact I).
  split; [exact Hnd|].
  exact (proj1 (global_indices_contiguous twoSquares freshState Hnd)).
Defined.

(** Witness of C9: on the two squares the bottom edge of the left cell,
    face 2, is classified [BC_DIR] with the value of [C] at (1/2, 0). *)
Lemma boundary_faces_dirichlet_witness :
  resolved (twoSquares (T := float)) /\
  exists st',
    initProblem twoSquares (freshState (T := float)) = Ret tt st' /\
    integer (tagBCtype (tags st')) 2%N = BC_DIR /\
    real (tagBCval (tags st')) 2%N = C half (flit 0).
Proof.
  assert (Hres : resolved (twoSquares (T := float))) by solve_resolved.
  split; [exact Hres|].
  destruct (proj1 (boundary_faces_dirichlet twoSquares freshState) Hres)
    as (st' & Hrun & Hfaces).
  exists st'. split; [exact Hrun|].
  apply (Hfaces 2%N); [|reflexivity].
  apply (bool_decide_unpack _). vm_compute. exact I.
Defined.

(** Witness of C7: the two squares with the shared edge left dangling. *)
Lemma invalid_front_cell_fatal_witness :
  (1%N ∈ faces (danglingFace (T := float)) /\
   faceBoundary (danglingFace (T := float)) 1%N = false /\
   faceFrontCell (danglingFace (T := float)) 1%N = None) /\
  main (H1 := echoSolver) "diffusion_fvm" [(danglingFace (T := float), emptyTags)] =
    (1%Z, [OutInvalidFrontCell]).
Proof.
  assert (Hf : 1%N ∈ faces (danglingFace (T := float)))
    by (apply (bool_decide_unpack _); vm_compute; exact I).
  split; [split; [exact Hf|split; reflexivity]|].
  apply (proj1 (proj2 (proj2
    (invalid_front_cell_fatal (H1 := echoSolver) danglingFace freshState 1%N
       Hf eq_refl eq_refl)))).
Defined.

(** Witness of C8: the two squares after [initProblem], with a solver
    that gives up: four events, the reason, exit status 1, tags untouched. *)
Lemma solver_failure_fatal_witness :
  let st := finalState (initProblem twoSquares (freshState (T := float))) in
  resolved (twoSquares (T := float)) /\
  exists A rhs,
    run (H1 := failingSolver) twoSquares st =
    Exited 1 {| tags := tags st;
                out := [OutN 2; CallSolve A rhs; OutIterations 500;
                        OutResidual (flit 1);
                        OutSolverFailed "maximum iterations reached"] |}.
Proof.
  intros st.
  assert (Hres : resolved (twoSquares (T := float))) by solve_resolved.
  split; [exact Hres|].
  eexists _, _.
  apply (proj1 (proj2 (proj2
    (solver_failure_fatal (H1 := failingSolver) twoSquares st Hres))) eq_refl).
Defined.

(** Witness of C3: on the two squares the one internal face, with stored
    conductivity -1 and area 1, leaves 0 - (-1) * 1 in both off-diagonal
    entries. *)
Lemma internal_face_stencil_witness :
  let st := finalState (initProblem twoSquares (freshState (T := float))) in
  resolved (twoSquares (T := float)) /\
  exists A rhs,
    assembleGlobalSystem twoSquares (∅, ∅) st = Ret (A, rhs) st /\
    mat_get A 0 1 = mat_get A 1 0 /\
    mat_get A 0 1 = (flit 0 - flit (-1) * flit 1)%D.
Proof.
  intros st.
  assert (Hres : resolved (twoSquares (T := float))) by solve_resolved.
  split; [exact Hres|].
  destruct (proj2 (internal_face_stencil twoSquares st) Hres)
    as (A & rhs & Hrun & Hsym & _ & Hone).
  exists A, rhs. split; [exact Hrun|]. split; [apply Hsym|].
  refine (proj1 (Hone 1%N 20%N _ eq_refl eq_refl _ _)).
  - apply (bool_decide_unpack _). vm_compute. exact I.
  - vm_compute. discriminate.
  - vm_compute. reflexivity.
Defined.

(** Counterexample to C3 as stated.  In the mesh [splitEdge] the faces 1
    and 8 both lie between the cells with global indices 0 and 1; each has
    [t * Area] = -0.4 (up to rounding), and the assembled entry (0,1) is
    0.8, not the negative 0.4 of face 1 alone. *)
Lemma internal_face_stencil_counterexample :
  let m := splitEdge (T := float) in
  let st := finalState (initProblem m freshState) in
  let t := real (tagBCcond (tags st)) 1%N in
  (faceBoundary m 1%N = false /\ faceFrontCell m 1%N = Some 20%N /\
   integer (tagGlobInd (tags st)) (faceBackCell m 1%N) = 0%Z /\
   integer (tagGlobInd (tags st)) 20%N = 1%Z) /\
  exists A rhs,
    assembleGlobalSystem m (∅, ∅) st = Ret (A, rhs) st /\
    mat_get A 0 1 <> (- (t * faceArea m 1%N))%D /\
    mat_get A 0 1 <> (flit 0 - t * faceArea m 1%N)%D.
Proof.
  intros m st t. split; [repeat split; vm_compute; reflexivity|].
  eexists _, _. split; [vm_compute; reflexivity|].
  split; float_neq.
Qed.

(** Counterexample to C1 as stated.  For the internal face of the two
    squares tfA = 2 and tfB = -2: the stored value is 2 * -2 / (2 - -2) =
    -1, and with tfA and tfB exchanged the formula gives +1. *)
Lemma conductivity_side_symmetry_counterexample :
  let m := twoSquares (T := float) in
  let st := finalState (initProblem m freshState) in
  let tfA := cell_tf m (tags st) 1%N (faceBackCell m 1%N) in
  let tfB := cell_tf m (tags st) 1%N 20%N in
  (faceBoundary m 1%N = false /\ faceFrontCell m 1%N = Some 20%N) /\
  real (tagBCcond (tags st)) 1%N = conductivity tfA tfB /\
  conductivity tfA tfB = flit (-1) /\
  conductivity tfB tfA = flit 1 /\
  conductivity tfA tfB <> conductivity tfB tfA.
Proof.
  intros m st tfA tfB. split; [split; reflexivity|].
  repeat split; try (vm_compute; reflexivity). float_neq.
Qed.

(** Witness of C1 (amended): the internal face of the two squares in
    rational arithmetic. *)
Lemma conductivity_side_symmetry_witness :
  let m := twoSquares (T := Qc) in
  let st := finalState (initProblem m freshState) in
  (faceBoundary m 1%N = false /\ faceFrontCell m 1%N = Some 20%N) /\
  initFace (reverseFace m 1%N 20%N) 1%N tt st = initFace m 1%N tt st.
Proof.
  intros m st. split; [split; reflexivity|].
  apply (proj2 (proj2 (proj2 (proj1 (proj2
    (conductivity_side_symmetry m st 1%N 20%N eq_refl eq_refl)) rational_exact)))).
Defined.

(** Witness of C10: the same face; the divisor tfA - tfB vanishes exactly
    when the two transmissibilities are equal. *)
Lemma conductivity_unguarded_witness :
  let m := twoSquares (T := Qc) in
  let st := finalState (initProblem m freshState) in
  let tfA := cell_tf m (tags st) 1%N (faceBackCell m 1%N) in
  let tfB := cell_tf m (tags st) 1%N 20%N in
  (faceBoundary m 1%N = false /\ faceFrontCell m 1%N = Some 20%N) /\
  ((tfA - tfB)%D = flit 0 <-> tfA = tfB).
Proof.
  intros m st tfA tfB. split; [split; reflexivity|].
  apply (proj1 (proj1 (proj2
    (conductivity_unguarded m st 1%N 20%N eq_refl eq_refl)) rational_exact)).
Defined.

(** In binary64 the unguarded division returns an infinity or a NaN when
    the two transmissibilities are equal, and the program goes on. *)
Example conductivity_equal_binary64 :
  conductivity (flit 2 : float) (flit 2) = infinity /\
  conductivity (flit 0 : float) (flit 0) = nan.
Proof. split; vm_compute; reflexivity. Qed.

(** Witness of C5: the two squares in rational arithmetic. *)
Lemma row_sums_balance_witness :
  let m := twoSquares (T := Qc) in
  (NoDup (cells m) /\ resolved m /\ cellsListed m) /\
  exists st1 A rhs,
    initProblem m freshState = Ret tt st1 /\
    assembleGlobalSystem m (∅, ∅) st1 = Ret (A, rhs) st1 /\
    rowSum A (integer (tagGlobInd (tags st1)) 10%N) 2 =
      cellBoundarySum m (tags st1) 10%N.
Proof.
  intros m.
  assert (Hnd : NoDup (cells m))
    by (apply (bool_decide_unpack _); vm_compute; exact I).
  assert (Hres : resolved m) by (subst m; solve_resolved).
  assert (Hlisted : cellsListed m).
  { unfold cellsListed; subst m; cbn [faces twoSquares].
    repeat (apply Forall_cons; split;
      [split; [apply (bool_decide_unpack _); vm_compute; exact I
              |cbn; try exact I; apply (bool_decide_unpack _); vm_compute; exact I]|]).
    constructor. }
  split; [split; [exact Hnd|split; [exact Hres|exact Hlisted]]|].
  destruct (row_sums_balance m freshState Hnd Hres Hlisted)
    as (st1 & A & rhs & Hinit & Hrun & Hrows).
  exists st1, A, rhs. split; [exact Hinit|]. split; [exact Hrun|].
  apply Hrows. apply (bool_decide_unpack _). vm_compute. exact I.
Defined.

(** * The rest of the program *)

Section InitFields.
Context {T : Type} `{Arith T} `{Libm T}.
Implicit Types (m : Mesh T) (st : State T) (tg : Tags T).

(** The one-sided transmissibility reads the tags through the tensor only. *)
Lemma cell_tf_tagD m tg tg' f c :
  tagD tg = tagD tg' -> cell_tf m tg f c = cell_tf m tg' f c.
Proof. intros E. unfold cell_tf, tensor. rewrite E. reflexivity. Qed.

(** The cell loop leaves on each cell it visits the tensor (dx, dy, dxy)
    and the analytical solution and the source term at its barycenter. *)
Lemma cellLoop_fields m (l : list Handle) g st :
  forall c, c ∈ l ->
    let tg := tags (finalState (forEach (initCell m) l g st)) in
    tagD tg !! c = Some (dx, dy, dxy) /\
    tagConcAn tg !! c = Some (C (cellBarycenter m c).1 (cellBarycenter m c).2) /\
    tagSource tg !! c = Some (source (cellBarycenter m c).1 (cellBarycenter m c).2).
Proof.
  revert g st. induction l as [|c' l IH]; intros g st c Hc; [inversion Hc|].
  cbv zeta. cbn [forEach]. unfold bind. rewrite initCell_eq.
  destruct (decide (c ∈ l)) as [Hl|Hl]; [apply IH, Hl|].
  apply elem_of_cons in Hc as [->|Hc]; [|contradiction].
  clear IH.
  assert (Hkeep : forall g st,
    c' ∉ l ->
    tagD (tags (finalState (forEach (initCell m) l g st))) !! c' = tagD (tags st) !! c' /\
    tagConcAn (tags (finalState (forEach (initCell m) l g st))) !! c' =
      tagConcAn (tags st) !! c' /\
    tagSource (tags (finalState (forEach (initCell m) l g st))) !! c' =
      tagSource (tags st) !! c').
  { clear. induction l as [|d l IH]; intros g st Hn; [auto|].
    apply not_elem_of_cons in Hn as [Hne Hn].
    cbn [forEach]. unfold bind. rewrite initCell_eq.
    destruct (IH (g + 1)%Z
      {| tags := setGlobInd d g
           (setSource d (source (cellBarycenter m d).1 (cellBarycenter m d).2)
              (setConcAn d (C (cellBarycenter m d).1 (cellBarycenter m d).2)
                 (setD d (dx, dy, dxy) (tags st))));
         out := out st |} Hn) as (-> & -> & ->).
    cbn. rewrite !lookup_insert_ne by congruence. auto. }
  destruct (Hkeep (g + 1)%Z
    {| tags := setGlobInd c' g
         (setSource c' (source (cellBarycenter m c').1 (cellBarycenter m c').2)
            (setConcAn c' (C (cellBarycenter m c').1 (cellBarycenter m c').2)
               (setD c' (dx, dy, dxy) (tags st))));
       out := out st |} Hl) as (-> & -> & ->).
  cbn. rewrite !lookup_insert_eq. auto.
Qed.

(** The face loop writes to the three face tags only, whether it runs to
    its end or exits. *)
Lemma faceLoop_cellTags m (l : list Handle) st :
  let tg := tags (finalState (forEach (initFace m) l tt st)) in
  tagD tg = tagD (tags st) /\ tagConcAn tg = tagConcAn (tags st) /\
  tagSource tg = tagSource (tags st) /\ tagConc tg = tagConc (tags st).
Proof.
  revert st. induction l as [|f l IH]; intros st; [cbn; auto|].
  cbv zeta. cbn [forEach]. unfold bind. rewrite initFace_eq.
  destruct (faceBoundary m f).
  - destruct (IH {| tags := setBCval f (C (faceBarycenter m f).1 (faceBarycenter m f).2)
                              (setBCtype f BC_DIR (tags st));
                    out := out st |}) as (-> & -> & -> & ->). cbn. auto.
  - destruct (faceFrontCell m f) as [cB|]; [|cbn; auto].
    destruct (IH {| tags := setBCcond f
                              (conductivity (cell_tf m (tags st) f (faceBackCell m f))
                                            (cell_tf m (tags st) f cB))
                              (tags st);
                    out := out st |}) as (-> & -> & -> & ->). cbn. auto.
Qed.

(** X1.  Whatever tag data the mesh carried and whether or not the face
    loop exits afterwards, [initProblem] leaves on every cell of the mesh
    the tensor (1, 1, 0), so the 2x2 tensor read back is the identity, the
    analytical solution [C] at the cell barycenter and the source term
    [source] at the cell barycenter. *)
Theorem cells_initialized m st c :
  c ∈ cells m ->
  let tg := tags (finalState (initProblem m st)) in
  realArray3 (tagD tg) c = (flit 1, flit 1, flit 0) /\
  tensor tg c = ((flit 1, flit 0), (flit 0, flit 1)) /\
  real (tagConcAn tg) c = C (cellBarycenter m c).1 (cellBarycenter m c).2 /\
  real (tagSource tg) c = source (cellBarycenter m c).1 (cellBarycenter m c).2.
Proof.
  intros Hc tg.
  assert (Hf : tagD tg !! c = Some (dx, dy, dxy) /\
    tagConcAn tg !! c = Some (C (cellBarycenter m c).1 (cellBarycenter m c).2) /\
    tagSource tg !! c = Some (source (cellBarycenter m c).1 (cellBarycenter m c).2)).
  { subst tg. unfold initProblem, bind.
    pose proof (cellLoop_fields m (cells m) 0%Z st c Hc) as Hcells.
    destruct (cellLoop_spec m (cells m) 0%Z st) as (st1 & Hrun & _).
    rewrite Hrun in Hcells |- *. cbn [finalState] in Hcells.
    destruct (faceLoop_cellTags m (faces m) st1) as (-> & -> & -> & _).
    exact Hcells. }
  destruct Hf as (HD & Han & Hsrc).
  unfold tensor, realArray3, real. rewrite HD, Han, Hsrc. cbn. auto.
Qed.

(** With every internal face resolved, the face loop leaves on each
    internal face the conductivity computed from the two one-sided
    transmissibilities, and each face is written by one branch only. *)
Lemma faceLoop_tags m (l : list Handle) st :
  Forall (fun f => faceBoundary m f = false -> is_Some (faceFrontCell m f)) l ->
  exists st',
    forEach (initFace m) l tt st = Ret tt st' /\
    (forall f cB, f ∈ l -> faceBoundary m f = false -> faceFrontCell m f = Some cB ->
       tagBCcond (tags st') !! f =
       Some (conductivity (cell_tf m (tags st) f (faceBackCell m f))
                          (cell_tf m (tags st) f cB))) /\
    (forall f, f ∉ l \/ faceBoundary m f = true ->
       tagBCcond (tags st') !! f = tagBCcond (tags st) !! f) /\
    (forall f, f ∉ l \/ faceBoundary m f = false ->
       tagBCtype (tags st') !! f = tagBCtype (tags st) !! f /\
       tagBCval (tags st') !! f = tagBCval (tags st) !! f).
Proof.
  revert st. induction l as [|g l IH]; intros st Hres.
  - exists st. split; [reflexivity|]. split; [intros f cB Hf; inversion Hf|auto].
  - apply Forall_cons in Hres as [Hg Hres].
    cbn [forEach]. unfold bind at 1. rewrite initFace_eq.
    destruct (faceBoundary m g) eqn:Hb.
    + destruct (IH {| tags := setBCval g (C (faceBarycenter m g).1 (faceBarycenter m g).2)
                                (setBCtype g BC_DIR (tags st));
                      out := out st |} Hres)
        as (st' & Hrun & Hint & Hcond & Hbc).
      exists st'. split; [exact Hrun|]. split; [|split].
      * intros f cB Hf Hbf Hfront.
        apply elem_of_cons in Hf as [E|Hf]; [congruence|].
        exact (Hint f cB Hf Hbf Hfront).
      * intros f Hf. destruct (decide (f = g)) as [->|Hne].
        -- apply Hcond. right. exact Hb.
        -- apply Hcond. destruct Hf as [Hf|Hf]; [left|right; exact Hf].
           apply not_elem_of_cons in Hf as [_ Hf]. exact Hf.
      * intros f Hf.
        assert (Hne : f <> g).
        { intros ->. destruct Hf as [Hf|Hf]; [|congruence].
          apply Hf. left. }
        assert (Hf' : f ∉ l \/ faceBoundary m f = false).
        { destruct Hf as [Hf|Hf]; [left|right; exact Hf].
          apply not_elem_of_cons in Hf as [_ Hf]. exact Hf. }
        destruct (Hbc f Hf') as [-> ->]. cbn.
        rewrite !lookup_insert_ne by congruence. auto.
    + destruct (Hg eq_refl) as [cB HcB]. rewrite HcB.
      destruct (IH {| tags := setBCcond g
                                (conductivity (cell_tf m (tags st) g (faceBackCell m g))
                                              (cell_tf m (tags st) g cB))
                                (tags st);
                      out := out st |} Hres)
        as (st' & Hrun & Hint & Hcond & Hbc).
      exists st'. split; [exact Hrun|]. split; [|split].
      * intros f cB' Hf Hbf Hfront.
        destruct (decide (f ∈ l)) as [Hl|Hl]; [exact (Hint f cB' Hl Hbf Hfront)|].
        apply elem_of_cons in Hf as [->|Hf]; [|contradiction].
        rewrite (Hcond g (or_introl Hl)). cbn.
        rewrite lookup_insert_eq. congruence.
      * intros f Hf.
        assert (Hne : f <> g).
        { intros ->. destruct Hf as [Hf|Hf]; [|congruence].
          apply Hf. left. }
        assert (Hf' : f ∉ l \/ faceBoundary m f = true).
        { destruct Hf as [Hf|Hf]; [left|right; exact Hf].
          apply not_elem_of_cons in Hf as [_ Hf]. exact Hf. }
        rewrite (Hcond f Hf'). cbn. apply lookup_insert_ne. congruence.
      * intros f Hf. destruct (decide (f = g)) as [->|Hne].
        -- apply Hbc. right. exact Hb.
        -- apply Hbc. destruct Hf as [Hf|Hf]; [left|right; exact Hf].
           apply not_elem_of_cons in Hf as [_ Hf]. exact Hf.
Qed.

(** X2.  When every internal face resolves its front cell, [initProblem]
    returns and each face was handled by exactly one branch: an internal
    face holds the conductivity [tfA * tfB / (tfA - tfB)] of the two
    transmissibilities computed from the tags as they are at the end, and
    its boundary-condition type and value are what they were before; a
    boundary face's conductivity entry is what it was before. *)
Theorem faces_initialized m st :
  resolved m ->
  exists st',
    initProblem m st = Ret tt st' /\
    (forall f cB,
       f ∈ faces m -> faceBoundary m f = false -> faceFrontCell m f = Some cB ->
       tagBCcond (tags st') !! f =
         Some (conductivity (cell_tf m (tags st') f (faceBackCell m f))
                            (cell_tf m (tags st') f cB)) /\
       tagBCtype (tags st') !! f = tagBCtype (tags st) !! f /\
       tagBCval (tags st') !! f = tagBCval (tags st) !! f) /\
    (forall f, faceBoundary m f = true ->
       tagBCcond (tags st') !! f = tagBCcond (tags st) !! f).
Proof.
  intros Hres. unfold initProblem, bind.
  destruct (cellLoop_spec m (cells m) 0%Z st) as (st1 & Hcells & _ & Hty & _).
  assert (Hface : tagBCval (tags st1) = tagBCval (tags st) /\
                  tagBCcond (tags st1) = tagBCcond (tags st)).
  { pose proof Hcells as E. apply (f_equal finalState) in E. cbn in E. subst st1.
    clear. generalize 0%Z. revert st.
    induction (cells m) as [|c l IH]; intros st g; [auto|].
    cbn [forEach]. unfold bind. rewrite initCell_eq.
    destruct (IH {| tags := setGlobInd c g
                     (setSource c (source (cellBarycenter m c).1 (cellBarycenter m c).2)
                        (setConcAn c (C (cellBarycenter m c).1 (cellBarycenter m c).2)
                           (setD c (dx, dy, dxy) (tags st))));
                    out := out st |} (g + 1)%Z) as [-> ->]. auto. }
  destruct Hface as [Hval Hcond0]. rewrite Hcells.
  destruct (faceLoop_tags m (faces m) st1 Hres) as (st' & Hrun & Hint & Hcond & Hbc).
  pose proof (faceLoop_cellTags m (faces m) st1) as HD.
  rewrite Hrun in HD |- *. cbn [finalState] in HD. destruct HD as (HD & _).
  exists st'. split; [reflexivity|]. split.
  - intros f cB Hf Hb Hfront.
    rewrite (Hint f cB Hf Hb Hfront).
    rewrite (cell_tf_tagD m (tags st') (tags st1) f (faceBackCell m f) HD).
    rewrite (cell_tf_tagD m (tags st') (tags st1) f cB HD).
    destruct (Hbc f (or_intror Hb)) as [-> ->]. rewrite Hty, Hval. auto.
  - intros f Hb. rewrite (Hcond f (or_intror Hb)), Hcond0. reflexivity.
Qed.

End InitFields.

Section AssembledSystem.
Context {T : Type} `{Arith T}.
Implicit Types (m : Mesh T) (st : State T) (tg : Tags T)
  (A : gmap (Z * Z) T) (rhs : gmap Z T) (sys : System T).

(** ** The right-hand side *)

Lemma rhs_faceContribution m tg sys f i :
  vec_get (faceContribution m tg sys f).2 i =
  if dirichletOf m tg i f
  then (vec_get sys.2 i
        - cell_tf m tg f (faceBackCell m f) * real (tagBCval tg) f * faceArea m f)%D
  else vec_get sys.2 i.
Proof.
  unfold faceContribution, dirichletOf.
  destruct (faceBoundary m f); cbn [andb].
  - destruct (Z.eqb_spec (integer (tagBCtype tg) f) BC_NEUM) as [E|E].
    + rewrite E. reflexivity.
    + destruct (integer (tagBCtype tg) f =? BC_DIR)%Z; [|reflexivity].
      cbn [andb dirichletFace snd]. rewrite vec_get_sub.
      destruct (Z.eqb_spec (integer (tagGlobInd tg) (faceBackCell m f)) i) as [E'|E'].
      * rewrite decide_True by exact E'. rewrite E'. reflexivity.
      * rewrite decide_False by exact E'. reflexivity.
  - destruct (faceFrontCell m f); reflexivity.
Qed.

Lemma rhs_faces m tg (l : list Handle) sys i :
  vec_get (fold_left (faceContribution m tg) l sys).2 i =
  fold_left
    (fun acc f =>
       (acc - cell_tf m tg f (faceBackCell m f) * real (tagBCval tg) f
              * faceArea m f)%D)
    (filter (fun f => dirichletOf m tg i f = true) l)
    (vec_get sys.2 i).
Proof.
  revert sys. induction l as [|f l IH]; intros sys; [reflexivity|].
  cbn [fold_left]. rewrite IH, rhs_faceContribution, filter_cons.
  destruct (decide (dirichletOf m tg i f = true)) as [E|E].
  - rewrite E. reflexivity.
  - apply not_true_is_false in E. rewrite E. reflexivity.
Qed.

Lemma rhs_sourceCell m tg sys c i :
  vec_get (sourceCell m tg c sys).2 i =
  if cellOf tg i c
  then (vec_get sys.2 i - real (tagSource tg) c * cellVolume m c)%D
  else vec_get sys.2 i.
Proof.
  unfold sourceCell, cellOf. cbn [snd]. rewrite vec_get_sub.
  destruct (Z.eqb_spec (integer (tagGlobInd tg) c) i) as [E|E].
  - rewrite decide_True by exact E. rewrite E. reflexivity.
  - rewrite decide_False by exact E. reflexivity.
Qed.

Lemma rhs_cells m tg (l : list Handle) sys i :
  vec_get (fold_left (fun s c => sourceCell m tg c s) l sys).2 i =
  fold_left (fun acc c => (acc - real (tagSource tg) c * cellVolume m c)%D)
            (filter (fun c => cellOf tg i c = true) l)
            (vec_get sys.2 i).
Proof.
  revert sys. induction l as [|c l IH]; intros sys; [reflexivity|].
  cbn [fold_left]. rewrite IH, rhs_sourceCell, filter_cons.
  destruct (decide (cellOf tg i c = true)) as [E|E].
  - rewrite E. reflexivity.
  - apply not_true_is_false in E. rewrite E. reflexivity.
Qed.

(** X3.  With every internal face resolved the assembly returns, and entry
    i of the right-hand side is, starting from zero, minus
    [t * (boundary value) * Area] for each Dirichlet boundary face of the
    cell with index i, in the order of the face loop, then minus
    [source * volume] for each cell with index i: internal faces and
    Neumann faces leave the right-hand side alone.  This holds in every
    arithmetic, with the operations in the order the program applies
    them. *)
Theorem rhs_entries m st :
  resolved m ->
  exists A rhs,
    assembleGlobalSystem m (∅, ∅) st = Ret (A, rhs) st /\
    forall i, vec_get rhs i = rhsEntry m (tags st) i.
Proof.
  intros Hres.
  exists (assembled m (tags st) (∅, ∅)).1, (assembled m (tags st) (∅, ∅)).2.
  split.
  - rewrite (assemble_resolved m (∅, ∅) st Hres).
    destruct (assembled m (tags st) (∅, ∅)); reflexivity.
  - intros i. unfold assembled, rhsEntry. rewrite rhs_cells, rhs_faces. reflexivity.
Qed.

(** ** The entries of the matrix *)

Lemma is_Some_insert {K} `{Countable K} {V} (M0 : gmap K V) k v k' :
  is_Some (<[k := v]> M0 !! k') <-> k = k' \/ is_Some (M0 !! k').
Proof.
  destruct (decide (k = k')) as [->|Hne].
  - rewrite lookup_insert_eq. split; eauto.
  - rewrite lookup_insert_ne by exact Hne. split; [auto|].
    intros [E|E]; [contradiction|exact E].
Qed.

Lemma pattern_faceContribution m tg sys f i j :
  is_Some ((faceContribution m tg sys f).1 !! (i, j)) <->
  is_Some (sys.1 !! (i, j)) \/ touches m tg i j f = true.
Proof.
  unfold faceContribution, touches.
  destruct (faceBoundary m f).
  - destruct (Z.eqb_spec (integer (tagBCtype tg) f) BC_NEUM) as [E|E]; cbn [negb andb].
    + split; [auto|]. intros [E'|E']; [exact E'|discriminate].
    + destruct (integer (tagBCtype tg) f =? BC_DIR)%Z; cbn [andb].
      * cbn [dirichletFace fst]. unfold mat_sub. rewrite is_Some_insert.
        rewrite andb_true_iff, !Z.eqb_eq.
        split; intros [E'|E']; auto; [injection E' as <- <-; auto|].
        destruct E' as [<- <-]. auto.
      * split; [auto|]. intros [E'|E']; [exact E'|discriminate].
  - destruct (faceFrontCell m f) as [cB|].
    + cbn [internalFace fst]. unfold mat_add, mat_sub. rewrite !is_Some_insert.
      rewrite andb_true_iff, !orb_true_iff, !Z.eqb_eq.
      generalize (integer (tagGlobInd tg) (faceBackCell m f)) (integer (tagGlobInd tg) cB).
      intros a b. split.
      * intros [E|[E|[E|[E|E]]]]; try (injection E as <- <-); auto.
      * intros [E|[[<-|<-] [<-|<-]]]; auto 10.
    + split; [auto|]. intros [E'|E']; [exact E'|discriminate].
Qed.

Lemma pattern_faces m tg (l : list Handle) sys i j :
  is_Some ((fold_left (faceContribution m tg) l sys).1 !! (i, j)) <->
  is_Some (sys.1 !! (i, j)) \/ exists f, f ∈ l /\ touches m tg i j f = true.
Proof.
  revert sys. induction l as [|f l IH]; intros sys.
  - cbn. split; [auto|]. intros [E|(f & Hf & _)]; [exact E|inversion Hf].
  - cbn [fold_left]. rewrite IH, pattern_faceContribution. split.
    + intros [[E|E]|(g & Hg & E)]; [auto|right; exists f|right; exists g];
        (split; [|exact E]); [left|right; exact Hg].
    + intros [E|(g & Hg & E)]; [auto|].
      apply elem_of_cons in Hg as [->|Hg]; [auto|]. right. eauto.
Qed.

(** X4.  With every internal face resolved, the assembled matrix holds an
    entry at (i, j) exactly when some face writes there: a Dirichlet
    boundary face whose cell has index i = j, or an internal face whose
    two cells have indices among which are both i and j.  No entry exists
    between cells that share no face. *)
Theorem matrix_pattern m st :
  resolved m ->
  exists A rhs,
    assembleGlobalSystem m (∅, ∅) st = Ret (A, rhs) st /\
    forall i j,
      is_Some (A !! (i, j)) <->
      exists f, f ∈ faces m /\ touches m (tags st) i j f = true.
Proof.
  intros Hres.
  exists (assembled m (tags st) (∅, ∅)).1, (assembled m (tags st) (∅, ∅)).2.
  split.
  - rewrite (assemble_resolved m (∅, ∅) st Hres).
    destruct (assembled m (tags st) (∅, ∅)); reflexivity.
  - intros i j. unfold assembled. rewrite sourceCells_matrix, pattern_faces.
    cbn [fst]. rewrite lookup_empty. split; [|auto].
    intros [[x E]|E]; [discriminate|exact E].
Qed.

Lemma diagonal_faceContribution m tg sys f i :
  mat_get (faceContribution m tg sys f).1 i i =
  diagonalStep m tg i (mat_get sys.1 i i) f.
Proof.
  unfold faceContribution, diagonalStep, dirichletOf.
  destruct (faceBoundary m f); cbn [andb].
  - destruct (Z.eqb_spec (integer (tagBCtype tg) f) BC_NEUM) as [E|E].
    + rewrite E. reflexivity.
    + destruct (integer (tagBCtype tg) f =? BC_DIR)%Z; [|reflexivity].
      cbn [andb dirichletFace fst]. rewrite mat_get_sub.
      destruct (Z.eqb_spec (integer (tagGlobInd tg) (faceBackCell m f)) i) as [E'|E'].
      * rewrite decide_True by congruence. rewrite E'. reflexivity.
      * rewrite decide_False by congruence. reflexivity.
  - destruct (faceFrontCell m f) as [cB|]; [|reflexivity].
    cbn [internalFace fst].
    generalize (integer (tagGlobInd tg) (faceBackCell m f)) (integer (tagGlobInd tg) cB)
               (real (tagBCcond tg) f * faceArea m f)%D.
    intros a b v.
    destruct (Z.eqb_spec a i) as [Ea|Ea], (Z.eqb_spec b i) as [Eb|Eb]; cbn [andb orb];
      repeat first
        [ rewrite mat_get_add
        | rewrite mat_get_sub
        | match goal with
          | |- context [decide ?P] => destruct (decide P); try (exfalso; congruence)
          end ];
      solve [reflexivity | congruence].
Qed.

(** X15.  With every internal face resolved, the diagonal entry (i, i) of
    the assembled matrix is what the faces leave there one after the
    other, from zero and in the order of the face loop: minus [t * Area]
    for a Dirichlet boundary face of cell i, plus the stored conductivity
    times the area for an internal face next to cell i, nothing for any
    other face.  In every arithmetic. *)
Theorem diagonal_entries m st :
  resolved m ->
  exists A rhs,
    assembleGlobalSystem m (∅, ∅) st = Ret (A, rhs) st /\
    forall i, mat_get A i i = fold_left (diagonalStep m (tags st) i) (faces m) (flit 0).
Proof.
  intros Hres.
  exists (assembled m (tags st) (∅, ∅)).1, (assembled m (tags st) (∅, ∅)).2.
  split.
  - rewrite (assemble_resolved m (∅, ∅) st Hres).
    destruct (assembled m (tags st) (∅, ∅)); reflexivity.
  - intros i. unfold assembled. rewrite sourceCells_matrix.
    change (flit 0) with (mat_get (∅, ∅ : gmap Z T).1 i i).
    generalize (∅ : gmap (Z * Z) T, ∅ : gmap Z T). generalize (faces m).
    intros l. induction l as [|f l IH]; intros sys; [reflexivity|].
    cbn [fold_left]. rewrite IH, diagonal_faceContribution. reflexivity.
Qed.

(** ** Dirichlet faces in the assembly *)



End AssembledSystem.

Section SolverSystem.
Context {T : Type} `{Arith T} `{Libm T} `{LinearSolver T}.
Implicit Types (m : Mesh T) (st : State T) (tg : Tags T) (sys : System T).

(** After [initProblem] the global indices of the cells of the mesh fill
    the interval [0, N). *)
Lemma initProblem_indices m st st1 :
  NoDup (cells m) ->
  initProblem m st = Ret tt st1 ->
  (forall c, c ∈ cells m ->
     (0 <= integer (tagGlobInd (tags st1)) c < Z.of_nat (length (cells m)))%Z) /\
  (forall i, (0 <= i < Z.of_nat (length (cells m)))%Z ->
     exists c, c ∈ cells m /\ integer (tagGlobInd (tags st1)) c = i).
Proof.
  intros Hnd Hinit.
  assert (Hglob : forall (k : nat) c, cells m !! k = Some c ->
            integer (tagGlobInd (tags st1)) c = Z.of_nat k).
  { intros k c Hk. pose proof (initProblem_globInd m st k c Hnd Hk) as E.
    rewrite Hinit in E. exact E. }
  split.
  - intros c Hc. apply list_elem_of_lookup in Hc as [k Hk].
    rewrite (Hglob k c Hk). apply lookup_lt_Some in Hk. lia.
  - intros i Hi.
    destruct (lookup_lt_is_Some_2 (cells m) (Z.to_nat i)) as [c Hc]; [lia|].
    exists c. split; [eapply list_elem_of_lookup_2; eassumption|].
    rewrite (Hglob _ c Hc). lia.
Qed.

Lemma rhsPattern_faces m tg (l : list Handle) sys i :
  is_Some ((fold_left (faceContribution m tg) l sys).2 !! i) <->
  is_Some (sys.2 !! i) \/ exists f, f ∈ l /\ dirichletOf m tg i f = true.
Proof.
  revert sys. induction l as [|f l IH]; intros sys.
  - cbn. split; [auto|]. intros [E|(f & Hf & _)]; [exact E|inversion Hf].
  - cbn [fold_left]. rewrite IH.
    assert (Hstep : is_Some ((faceContribution m tg sys f).2 !! i) <->
                    is_Some (sys.2 !! i) \/ dirichletOf m tg i f = true).
    { unfold faceContribution, dirichletOf.
      destruct (faceBoundary m f); cbn [andb].
      - destruct (Z.eqb_spec (integer (tagBCtype tg) f) BC_NEUM) as [E|E].
        + rewrite E. cbn. split; [auto|]. intros [E'|E']; [exact E'|discriminate].
        + destruct (integer (tagBCtype tg) f =? BC_DIR)%Z; cbn [andb].
          * cbn [dirichletFace snd]. unfold vec_sub. rewrite is_Some_insert, Z.eqb_eq.
            tauto.
          * split; [auto|]. intros [E'|E']; [exact E'|discriminate].
      - destruct (faceFrontCell m f); cbn [internalFace snd];
          (split; [auto|]); intros [E'|E']; first [exact E'|discriminate]. }
    rewrite Hstep. split.
    + intros [[E|E]|(g & Hg & E)]; [auto|right; exists f|right; exists g];
        (split; [|exact E]); [left|right; exact Hg].
    + intros [E|(g & Hg & E)]; [auto|].
      apply elem_of_cons in Hg as [->|Hg]; [auto|]. right. eauto.
Qed.

Lemma rhsPattern_cells m tg (l : list Handle) sys i :
  is_Some ((fold_left (fun s c => sourceCell m tg c s) l sys).2 !! i) <->
  is_Some (sys.2 !! i) \/ exists c, c ∈ l /\ integer (tagGlobInd tg) c = i.
Proof.
  revert sys. induction l as [|c l IH]; intros sys.
  - cbn. split; [auto|]. intros [E|(c & Hc & _)]; [exact E|inversion Hc].
  - cbn [fold_left]. rewrite IH.
    assert (Hstep : is_Some ((sourceCell m tg c sys).2 !! i) <->
                    integer (tagGlobInd tg) c = i \/ is_Some (sys.2 !! i))
      by (unfold sourceCell, vec_sub; cbn [snd]; apply is_Some_insert).
    rewrite Hstep. split.
    + intros [[E|E]|(d & Hd & E)]; [right; exists c|auto|right; exists d];
        (split; [|exact E]); [left|right; exact Hd].
    + intros [E|(d & Hd & E)]; [auto|].
      apply elem_of_cons in Hd as [->|Hd]; [auto|]. right. eauto.
Qed.

(** X5.  For a mesh whose cell iteration has no repeats, whose internal
    faces all resolve their front cell and whose faces lie between cells
    of the mesh, [initProblem] returns and [run] then hands the solver a
    system that fits the interval [0, N) it was sized for: the matrix is
    symmetric, all its entries have row and column in [0, N), and the
    right-hand side has an entry at exactly the indices of [0, N). *)
Theorem solver_system m st :
  NoDup (cells m) ->
  resolved m ->
  cellsListed m ->
  exists st1,
    initProblem m st = Ret tt st1 /\
    let sys := assembled m (tags st1) (∅, ∅) in
    let N := Z.of_nat (length (cells m)) in
    assembleGlobalSystem m (∅, ∅) st1 = Ret sys st1 /\
    (forall i j, mat_get sys.1 i j = mat_get sys.1 j i) /\
    (forall i j, is_Some (sys.1 !! (i, j)) -> (0 <= i < N)%Z /\ (0 <= j < N)%Z) /\
    (forall i, is_Some (sys.2 !! i) <-> (0 <= i < N)%Z) /\
    exists rest,
      out (finalState (run m st1)) =
      out st1 ++ [OutN (to_unsigned N); CallSolve sys.1 sys.2] ++ rest.
Proof.
  intros Hnd Hres Hlisted.
  destruct (initProblem_resolved m st Hres) as (st1 & Hinit & _ & _).
  destruct (initProblem_indices m st st1 Hnd Hinit) as [Hrange Honto].
  unfold cellsListed in Hlisted. rewrite Forall_forall in Hlisted.
  exists st1. split; [exact Hinit|]. cbv zeta.
  split; [apply assemble_resolved, Hres|].
  split; [unfold assembled; rewrite sourceCells_matrix;
          apply symmetric_faces, symmetric_empty|].
  split; [|split].
  - intros i j. unfold assembled. rewrite sourceCells_matrix, pattern_faces.
    cbn [fst]. rewrite lookup_empty.
    intros [[x E]|(f & Hf & Ht)]; [discriminate|].
    destruct (Hlisted f Hf) as [Hback Hfront].
    unfold touches in Ht. destruct (faceBoundary m f).
    + apply andb_prop in Ht as [Ht Hj]. apply andb_prop in Ht as [_ Hi].
      apply Z.eqb_eq in Hi, Hj. rewrite <- Hi, <- Hj. split; apply Hrange, Hback.
    + destruct (faceFrontCell m f) as [cB|]; [|discriminate].
      apply andb_prop in Ht as [Hi Hj].
      apply orb_prop in Hi, Hj. rewrite !Z.eqb_eq in Hi, Hj.
      split; [destruct Hi as [<-|<-]|destruct Hj as [<-|<-]]; apply Hrange; assumption.
  - intros i. unfold assembled. rewrite rhsPattern_cells, rhsPattern_faces.
    cbn [snd]. rewrite lookup_empty. split.
    + intros [[[x E]|(f & Hf & Hd)]|(c & Hc & E)]; [discriminate| |].
      * unfold dirichletOf in Hd. apply andb_prop in Hd as [_ Hd].
        apply Z.eqb_eq in Hd. rewrite <- Hd. apply Hrange, (Hlisted f Hf).
      * rewrite <- E. apply Hrange, Hc.
    + intros Hi. right. apply Honto, Hi.
  - pose proof (run_resolved m st1 Hres) as Hrun. cbv zeta in Hrun.
    pose proof (@List.app_assoc (Event T)) as Hassoc.
    destruct (solved _).
    + destruct Hrun as (st' & nC & nL2 & -> & Hout). cbn [finalState].
      rewrite Hout. unfold report. eexists. cbn [app]. reflexivity.
    + rewrite Hrun. cbn [finalState out]. unfold report. eexists.
      cbn [app]. reflexivity.
Qed.

End SolverSystem.

Section NoDirichlet.
Context {T : Type} `{Arith T} `{!ExactArith T}.
Implicit Types (m : Mesh T) (st : State T).

(** X6.  In exact arithmetic, when no boundary face is classified
    [BC_DIR] (all are Neumann or unclassified) and the global indices of
    the cells next to the faces lie in [0, N), the assembly returns a
    matrix all of whose rows sum to zero over the columns 0 .. N-1: the
    constant vector is in its kernel, so the system handed to the solver
    is singular. *)
Theorem no_dirichlet_rows_vanish m st (N : nat) :
  resolved m ->
  indicesBelow m (tags st) (Z.of_nat N) ->
  (forall f, f ∈ faces m -> faceBoundary m f = true ->
             integer (tagBCtype (tags st)) f <> BC_DIR) ->
  exists A rhs,
    assembleGlobalSystem m (∅, ∅) st = Ret (A, rhs) st /\
    forall i, rowSum A i N = flit 0.
Proof.
  intros Hres Hin Hnone.
  exists (assembled m (tags st) (∅, ∅)).1, (assembled m (tags st) (∅, ∅)).2.
  split.
  - rewrite (assemble_resolved m (∅, ∅) st Hres).
    destruct (assembled m (tags st) (∅, ∅)); reflexivity.
  - intros i. rewrite (assembled_row_sums m (tags st) N i Hin).
    unfold boundaryDiagonal.
    replace (filter (fun f => dirichletOf m (tags st) i f = true) (faces m))
      with (@nil Handle); [reflexivity|].
    symmetry. revert Hnone. generalize (faces m). intros l.
    induction l as [|f l IH]; intros Hnone; [reflexivity|].
    rewrite filter_cons.
    destruct (decide (dirichletOf m (tags st) i f = true)) as [E|E].
    + exfalso. unfold dirichletOf in E.
      apply andb_prop in E as [E _]. apply andb_prop in E as [Hb Hty].
      apply Z.eqb_eq in Hty. apply (Hnone f); [left|exact Hb|exact Hty].
    + apply IH. intros g Hg. apply Hnone. right. exact Hg.
Qed.

End NoDirichlet.

Section WriteBack.
Context {T : Type} `{Arith T} `{Libm T} `{LinearSolver T}.
Implicit Types (m : Mesh T) (st : State T) (tg : Tags T) (sol : gmap Z T).

Lemma writeBackCell_eq m sol c (norms : T * T) st :
  writeBackCell m sol c norms st =
  Ret (fmax norms.1 (cellError (tags st) sol c),
       (norms.2 + cellError (tags st) sol c * cellVolume m c)%D)
      {| tags := setConc c
                   (vec_get sol (to_unsigned (integer (tagGlobInd (tags st)) c)))
                   (tags st);
         out := out st |}.
Proof.
  unfold writeBackCell, bind, getTags, modifyTags, ret, cellError.
  cbn [tags out setConc tagConc tagConcAn].
  assert (E : forall v : T, real (<[c := v]> (tagConc (tags st))) c = v)
    by (intros v; unfold real; rewrite lookup_insert_eq; reflexivity).
  rewrite !E. reflexivity.
Qed.

(** The last loop of [run]: the norms depend on the solution vector, the
    global indices and the analytical values only; the tags change in the
    solution field only. *)
Lemma writeBack_loop m sol (l : list Handle) (norms : T * T) st :
  forEach (writeBackCell m sol) l norms st =
  Ret (errorNorms m (tags st) sol l norms)
      {| tags := scattered (tags st) sol l; out := out st |}.
Proof.
  revert norms st. induction l as [|c l IH]; intros norms st.
  - destruct st; reflexivity.
  - cbn [forEach]. unfold bind at 1. rewrite writeBackCell_eq, IH. reflexivity.
Qed.

Lemma setConc_fold (v : Handle -> T) (l : list Handle) tg :
  let tg' := fold_left (fun t c => setConc c (v c) t) l tg in
  (tagD tg' = tagD tg /\
   tagBCtype tg' = tagBCtype tg /\
   tagBCval tg' = tagBCval tg /\
   tagSource tg' = tagSource tg /\
   tagConcAn tg' = tagConcAn tg /\
   tagGlobInd tg' = tagGlobInd tg /\
   tagBCcond tg' = tagBCcond tg) /\
  forall c, tagConc tg' !! c = if decide (c ∈ l) then Some (v c) else tagConc tg !! c.
Proof.
  revert tg. induction l as [|d l IH]; intros tg; cbv zeta.
  - split; [repeat split; reflexivity|]. intros c. cbn.
    destruct (decide (c ∈ [])) as [E|_]; [inversion E|reflexivity].
  - cbn [fold_left]. destruct (IH (setConc d (v d) tg)) as [Hother Hconc].
    split; [exact Hother|]. intros c. rewrite Hconc. cbn [setConc tagConc].
    destruct (decide (c ∈ l)) as [Hl|Hl].
    + rewrite decide_True by (right; exact Hl). reflexivity.
    + destruct (decide (c = d)) as [->|Hne].
      * rewrite decide_True by left. apply lookup_insert_eq.
      * rewrite decide_False by (intros E; apply elem_of_cons in E as [E|E]; auto).
        apply lookup_insert_ne. congruence.
Qed.

Lemma scattered_other tg sol (l : list Handle) :
  tagD (scattered tg sol l) = tagD tg /\
  tagBCtype (scattered tg sol l) = tagBCtype tg /\
  tagBCval (scattered tg sol l) = tagBCval tg /\
  tagSource (scattered tg sol l) = tagSource tg /\
  tagConcAn (scattered tg sol l) = tagConcAn tg /\
  tagGlobInd (scattered tg sol l) = tagGlobInd tg /\
  tagBCcond (scattered tg sol l) = tagBCcond tg.
Proof.
  apply (setConc_fold
           (fun c => vec_get sol (to_unsigned (integer (tagGlobInd tg) c))) l tg).
Qed.

Lemma scattered_conc tg sol (l : list Handle) c :
  tagConc (scattered tg sol l) !! c =
  if decide (c ∈ l)
  then Some (vec_get sol (to_unsigned (integer (tagGlobInd tg) c)))
  else tagConc tg !! c.
Proof.
  apply (setConc_fold
           (fun c => vec_get sol (to_unsigned (integer (tagGlobInd tg) c))) l tg).
Qed.

(** X7.  With every internal face resolved and a solver that reports
    success on the assembled system, [run] returns: every cell of the
    mesh then holds in its solution field the entry of the solution
    vector at the cell's global index (cast to unsigned, which changes
    nothing for an index in [0, 2^32)); the solution field of other
    handles and the seven other tags are as before; and the two numbers
    printed are the norms [errorNorms] of the cell errors, followed by the
    save of the mesh to "res.pvtk". *)
Theorem solution_scattered m st :
  resolved m ->
  let sys := assembled m (tags st) (∅, ∅) in
  let r := solve sys.1 sys.2 in
  let norms := errorNorms m (tags st) (solution r) (cells m) (flit 0, flit 0) in
  solved r = true ->
  exists st',
    run m st = Ret tt st' /\
    (forall c, c ∈ cells m ->
       real (tagConc (tags st')) c =
         vec_get (solution r) (to_unsigned (integer (tagGlobInd (tags st)) c)) /\
       ((0 <= integer (tagGlobInd (tags st)) c < 2 ^ 32)%Z ->
        real (tagConc (tags st')) c =
          vec_get (solution r) (integer (tagGlobInd (tags st)) c))) /\
    (forall c, c ∉ cells m -> tagConc (tags st') !! c = tagConc (tags st) !! c) /\
    (tagD (tags st') = tagD (tags st) /\
     tagBCtype (tags st') = tagBCtype (tags st) /\
     tagBCval (tags st') = tagBCval (tags st) /\
     tagSource (tags st') = tagSource (tags st) /\
     tagConcAn (tags st') = tagConcAn (tags st) /\
     tagGlobInd (tags st') = tagGlobInd (tags st) /\
     tagBCcond (tags st') = tagBCcond (tags st)) /\
    out st' = out st ++ report m st ++
              [OutErrorC norms.1; OutErrorL2 norms.2; CallSave "res.pvtk"].
Proof.
  intros Hres sys r norms Hsolved.
  pose proof (@List.app_assoc (Event T)) as Hassoc.
  exists {| tags := scattered (tags st) (solution r) (cells m);
            out := out st ++ report m st ++
                   [OutErrorC norms.1; OutErrorL2 norms.2; CallSave "res.pvtk"] |}.
  split.
  - unfold run. unfold bind at 1. unfold emit at 1.
    unfold bind at 1. rewrite (assemble_resolved m _ _ Hres). cbn [tags out].
    fold sys. unfold bind at 1. unfold emit at 1. cbn [tags out].
    unfold bind at 1. unfold emit at 1. cbn [tags out].
    unfold bind at 1. unfold emit at 1. cbn [tags out]. fold r.
    rewrite Hsolved. cbn [negb]. unfold bind at 1. rewrite writeBack_loop.
    cbn [tags out]. fold norms. unfold bind, emit. cbn [tags out].
    unfold report. fold sys r. rewrite <- !Hassoc. reflexivity.
  - cbn [tags out]. split; [|split; [|split; [apply scattered_other|reflexivity]]].
    + intros c Hc.
      assert (E : real (tagConc (scattered (tags st) (solution r) (cells m))) c =
                  vec_get (solution r) (to_unsigned (integer (tagGlobInd (tags st)) c))).
      { unfold real. rewrite scattered_conc, decide_True by exact Hc. reflexivity. }
      split; [exact E|]. intros Hrange. rewrite E. unfold to_unsigned.
      rewrite Z.mod_small by exact Hrange. reflexivity.
    + intros c Hc. rewrite scattered_conc, decide_False by exact Hc. reflexivity.
Qed.

(** ** The C-norm *)

Lemma errorNorms_cons m tg sol c (l : list Handle) (norms : T * T) :
  errorNorms m tg sol (c :: l) norms =
  errorNorms m tg sol l
    (fmax norms.1 (cellError tg sol c),
     (norms.2 + cellError tg sol c * cellVolume m c)%D).
Proof. reflexivity. Qed.

Lemma errorNormC_attained m tg sol (l : list Handle) (norms : T * T) :
  (errorNorms m tg sol l norms).1 = norms.1 \/
  exists c, c ∈ l /\ (errorNorms m tg sol l norms).1 = cellError tg sol c.
Proof.
  revert norms. induction l as [|c l IH]; intros norms; [left; reflexivity|].
  rewrite errorNorms_cons.
  destruct (IH (fmax norms.1 (cellError tg sol c),
                (norms.2 + cellError tg sol c * cellVolume m c)%D))
    as [E|(d & Hd & E)].
  - rewrite E. cbn [fst]. unfold fmax.
    destruct (fltb norms.1 (cellError tg sol c)); [right; exists c|left];
      [split; [left|reflexivity]|reflexivity].
  - right. exists d. split; [right; exact Hd|exact E].
Qed.

Lemma errorNormC_bound `{!StrictLess T} m tg sol (l : list Handle) (norms : T * T) :
  fltb (errorNorms m tg sol l norms).1 norms.1 = false /\
  forall c, c ∈ l -> fltb (errorNorms m tg sol l norms).1 (cellError tg sol c) = false.
Proof.
  revert norms. induction l as [|c l IH]; intros norms.
  - cbn. split; [apply fltb_irrefl|]. intros c Hc. inversion Hc.
  - rewrite errorNorms_cons.
    destruct (IH (fmax norms.1 (cellError tg sol c),
                  (norms.2 + cellError tg sol c * cellVolume m c)%D))
      as [Hstart Hcells]. cbn [fst] in Hstart.
    set (res := (errorNorms m tg sol l
                   (fmax norms.1 (cellError tg sol c),
                    (norms.2 + cellError tg sol c * cellVolume m c)%D)).1) in *.
    unfold fmax in Hstart.
    destruct (fltb norms.1 (cellError tg sol c)) eqn:E2.
    + split.
      * destruct (fltb res norms.1) eqn:E; [|reflexivity].
        rewrite (fltb_trans _ _ _ E E2) in Hstart. discriminate.
      * intros d Hd. apply elem_of_cons in Hd as [->|Hd]; [exact Hstart|].
        apply Hcells, Hd.
    + split; [exact Hstart|].
      intros d Hd. apply elem_of_cons in Hd as [->|Hd]; [|apply Hcells, Hd].
      destruct (fltb res (cellError tg sol c)) eqn:E; [|reflexivity].
      destruct (fltb_cotrans _ norms.1 _ E) as [E'|E']; congruence.
Qed.

(** X8.  The C-norm that the loop accumulates from zero is zero or the
    error of one of the cells; and in an arithmetic whose [<] is a strict
    order comparing any two values, it is not below zero and not below the
    error of any cell: it is the largest cell error, or zero. *)
Theorem errorNormC_is_maximum m tg sol :
  let normC := (errorNorms m tg sol (cells m) (flit 0, flit 0)).1 in
  (normC = flit 0 \/ exists c, c ∈ cells m /\ normC = cellError tg sol c) /\
  (StrictLess T ->
   fltb normC (flit 0) = false /\
   forall c, c ∈ cells m -> fltb normC (cellError tg sol c) = false).
Proof.
  intros normC. split.
  - apply (errorNormC_attained m tg sol (cells m) (flit 0, flit 0)).
  - intros Hlt. apply (errorNormC_bound m tg sol (cells m) (flit 0, flit 0)).
Qed.

End WriteBack.

(** ** Not-a-number in the driver and in calc_tf (binary64) *)

Lemma binary64_ltb_nan (x : float) : (x <? nan)%float = false.
Proof.
  rewrite ltb_spec. change (Prim2SF nan) with S754_nan.
  destruct (Prim2SF x) as [s|s| |s mx ex]; try destruct s; reflexivity.
Qed.

Lemma binary64_add_nan (x : float) : (x + nan)%float = nan.
Proof.
  apply Prim2SF_inj. rewrite add_spec. change (Prim2SF nan) with S754_nan.
  destruct (Prim2SF x); reflexivity.
Qed.

Lemma binary64_nan_add (x : float) : (nan + x)%float = nan.
Proof.
  apply Prim2SF_inj. rewrite add_spec. change (Prim2SF nan) with S754_nan.
  reflexivity.
Qed.

Lemma binary64_nan_mul (x : float) : (nan * x)%float = nan.
Proof.
  apply Prim2SF_inj. rewrite mul_spec. change (Prim2SF nan) with S754_nan.
  reflexivity.
Qed.

Lemma binary64_normC_not_nan (m : Mesh float) tg sol (l : list Handle)
    (norms : float * float) :
  norms.1 <> nan -> (errorNorms m tg sol l norms).1 <> nan.
Proof.
  revert norms. induction l as [|c l IH]; intros norms Hn; [exact Hn|].
  rewrite errorNorms_cons. apply IH. cbn [fst]. unfold fmax. cbn [fltb binary64].
  destruct (norms.1 <? cellError tg sol c)%float eqn:E; [|exact Hn].
  intros Enan. rewrite Enan, binary64_ltb_nan in E. discriminate.
Qed.

Lemma binary64_normL2_stays_nan (m : Mesh float) tg sol (l : list Handle)
    (norms : float * float) :
  norms.2 = nan -> (errorNorms m tg sol l norms).2 = nan.
Proof.
  revert norms. induction l as [|c l IH]; intros norms Hn; [exact Hn|].
  rewrite errorNorms_cons. apply IH. cbn [snd fadd fmul binary64].
  rewrite Hn. apply binary64_nan_add.
Qed.

(** X9.  In binary64 the C-norm accumulated from zero is never a NaN,
    whatever the solution vector holds: [std::max(normC, diff)] keeps
    [normC] when [diff] is a NaN.  The L2-norm is a NaN as soon as the
    error of one cell is.  A solution with a NaN entry therefore shows in
    the printed L2-norm and not in the printed C-norm. *)
Theorem binary64_norms_nan (m : Mesh float) (tg : Tags float) (sol : gmap Z float) :
  let norms := errorNorms m tg sol (cells m) (flit 0, flit 0) in
  norms.1 <> nan /\
  (forall x : float, fmax x nan = x) /\
  (forall c, c ∈ cells m -> cellError tg sol c = nan -> norms.2 = nan).
Proof.
  intros norms. split; [|split].
  - apply binary64_normC_not_nan. cbn. float_neq.
  - intros x. unfold fmax. cbn [fltb binary64]. rewrite binary64_ltb_nan. reflexivity.
  - subst norms. generalize (flit 0 : float, flit 0 : float).
    induction (cells m) as [|d l IH]; intros norms c Hc Hnan; [inversion Hc|].
    rewrite errorNorms_cons.
    destruct (decide (c ∈ l)) as [Hl|Hl]; [apply (IH _ c Hl Hnan)|].
    apply elem_of_cons in Hc as [->|Hc]; [|contradiction].
    apply binary64_normL2_stays_nan. cbn [snd fadd fmul binary64].
    rewrite Hnan, binary64_nan_mul. apply binary64_add_nan.
Qed.

Lemma SF64mul_finite_zero x y :
  match x with S754_zero _ | S754_finite _ _ _ => True | _ => False end ->
  (exists s, y = S754_zero s) ->
  (exists s, SF64mul x y = S754_zero s) /\ (exists s, SF64mul y x = S754_zero s).
Proof.
  intros Hx [s ->]. rewrite (SF64mul_comm (S754_zero s) x).
  destruct x as [sx|sx| |sx mx ex]; try contradiction; cbn; eauto.
Qed.

Lemma SF64add_zero_zero x y :
  (exists s, x = S754_zero s) -> (exists s, y = S754_zero s) ->
  exists s, SF64add x y = S754_zero s.
Proof. intros [sx ->] [sy ->]. destruct sx, sy; cbn; eauto. Qed.

(** X10.  In binary64, [calc_tf] with a displacement whose two components
    are zeros (the cell centre on the face centre) and a finite tensor
    and normal returns a NaN: the numerator and the squared length are
    both zero, and nothing in [calc_tf] tests for it. *)
Theorem binary64_calc_tf_degenerate (D : (float * float) * (float * float))
    (n d : float * float) :
  finite64 D.1.1 = true -> finite64 D.1.2 = true ->
  finite64 D.2.1 = true -> finite64 D.2.2 = true ->
  finite64 n.1 = true -> finite64 n.2 = true ->
  zero64 d.1 = true -> zero64 d.2 = true ->
  calc_tf D n d = nan.
Proof.
  destruct D as [[d00 d01] [d10 d11]], n as [n0 n1], d as [x y]. cbn [fst snd].
  unfold finite64, zero64. intros H00 H01 H10 H11 Hn0 Hn1 Hx Hy.
  assert (Zx : exists s, Prim2SF x = S754_zero s)
    by (destruct (Prim2SF x); try discriminate; eauto).
  assert (Zy : exists s, Prim2SF y = S754_zero s)
    by (destruct (Prim2SF y); try discriminate; eauto).
  assert (Fin : forall v, match Prim2SF v with
                          | S754_zero _ | S754_finite _ _ _ => true
                          | _ => false
                          end = true ->
                match Prim2SF v with
                | S754_zero _ | S754_finite _ _ _ => True
                | _ => False
                end)
    by (intros v Hv; destruct (Prim2SF v); try discriminate; exact I).
  assert (Zero_fin : forall v, (exists s, Prim2SF v = S754_zero s) ->
                match Prim2SF v with
                | S754_zero _ | S754_finite _ _ _ => True
                | _ => False
                end)
    by (intros v [s ->]; exact I).
  assert (Hmul : forall u z, match Prim2SF u with
                            | S754_zero _ | S754_finite _ _ _ => True
                            | _ => False
                            end ->
                 (exists s, Prim2SF z = S754_zero s) ->
                 (exists s, Prim2SF (u * z)%float = S754_zero s) /\
                 (exists s, Prim2SF (z * u)%float = S754_zero s)).
  { intros u z Hu Hz. rewrite !mul_spec. apply SF64mul_finite_zero; assumption. }
  assert (Hadd : forall u z, (exists s, Prim2SF u = S754_zero s) ->
                 (exists s, Prim2SF z = S754_zero s) ->
                 exists s, Prim2SF (u + z)%float = S754_zero s).
  { intros u z Hu Hz. rewrite add_spec. apply SF64add_zero_zero; assumption. }
  unfold calc_tf. cbn [fst snd fadd fmul fdiv binary64].
  assert (Z0 : exists s, Prim2SF (d00 * x + d01 * y)%float = S754_zero s)
    by exact (Hadd _ _ (proj1 (Hmul d00 x (Fin _ H00) Zx))
                       (proj1 (Hmul d01 y (Fin _ H01) Zy))).
  assert (Z1 : exists s, Prim2SF (d10 * x + d11 * y)%float = S754_zero s)
    by exact (Hadd _ _ (proj1 (Hmul d10 x (Fin _ H10) Zx))
                       (proj1 (Hmul d11 y (Fin _ H11) Zy))).
  assert (Znum : exists s, Prim2SF ((d00 * x + d01 * y) * n0
                                    + (d10 * x + d11 * y) * n1)%float = S754_zero s)
    by exact (Hadd _ _ (proj2 (Hmul n0 _ (Fin _ Hn0) Z0))
                       (proj2 (Hmul n1 _ (Fin _ Hn1) Z1))).
  assert (Zden : exists s, Prim2SF (x * x + y * y)%float = S754_zero s)
    by exact (Hadd _ _ (proj1 (Hmul x x (Zero_fin _ Zx) Zx))
                       (proj1 (Hmul y y (Zero_fin _ Zy) Zy))).
  apply Prim2SF_inj. rewrite div_spec.
  destruct Znum as [s1 ->], Zden as [s2 ->]. reflexivity.
Qed.

(** ** The manufactured problem (rational arithmetic) *)

(** X11.  In exact arithmetic and for any sin and cos, the source term is
    200 times the analytical solution: with the constants of the program
    (dx = dy = 1, dxy = 0, a = 10) the cos-cos term vanishes and
    [a * a * (dx + dy)] is 200. *)
Theorem source_is_scaled_solution (L : Libm Qc) (x y : Qc) :
  source x y = (flit 200 * C x y)%D.
Proof.
  unfold source, C, a, dx, dy, dxy. cbn [flit fadd fsub fmul fneg rational].
  generalize (fsin (Q2Qc (inject_Z 10) * x)%Qc) (fsin (Q2Qc (inject_Z 10) * y)%Qc)
             (fcos (Q2Qc (inject_Z 10) * x)%Qc) (fcos (Q2Qc (inject_Z 10) * y)%Qc).
  intros s1 s2 c1 c2.
  set (ten := ((1 + 1) * (1 + 1 + 1 + 1 + 1))%Qc).
  replace (Q2Qc (inject_Z 200)) with (ten * ten * (1 + 1))%Qc
    by (apply Qc_is_canon; reflexivity).
  replace (Q2Qc (inject_Z 10)) with ten by (apply Qc_is_canon; reflexivity).
  replace (Q2Qc (inject_Z 2)) with (1 + 1)%Qc by (apply Qc_is_canon; reflexivity).
  change (Q2Qc (inject_Z 1)) with (1%Qc).
  change (Q2Qc (inject_Z 0)) with (0%Qc).
  ring.
Qed.

Section MainLoop.
Context {T : Type} `{Arith T} `{Libm T} `{LinearSolver T}.
Implicit Types (m : Mesh T) (st : State T).

(** An exit of [initProblem] is the exit of its face loop: its message is
    the last thing printed. *)
Lemma initProblem_exit_out m st code st' :
  initProblem m st = Exited code st' ->
  out st' = out st ++ [OutInvalidFrontCell].
Proof.
  unfold initProblem, bind.
  destruct (cellLoop_spec m (cells m) 0%Z st) as (st1 & -> & <- & _).
  generalize (faces m) st1. clear. intros l.
  induction l as [|f l IH]; intros st1; [discriminate|].
  cbn [forEach]. unfold bind at 1. rewrite initFace_eq.
  destruct (faceBoundary m f); [intros E; exact (IH _ E)|].
  destruct (faceFrontCell m f); [intros E; exact (IH _ E)|].
  intros E. injection E as _ <-. reflexivity.
Qed.

(** An exit of [run] ends with one of the two messages. *)
Lemma run_exit_out m st code st' :
  run m st = Exited code st' ->
  exists pre e, out st' = pre ++ [e] /\
    (e = OutInvalidFrontCell \/ exists why, e = OutSolverFailed why).
Proof.
  unfold run. unfold bind at 1. unfold emit at 1. unfold bind at 1.
  destruct (assembleGlobalSystem m (∅, ∅) _) as [sys st1|code1 st1] eqn:Hasm.
  - unfold bind at 1. unfold emit at 1.
    unfold bind at 1. unfold emit at 1.
    unfold bind at 1. unfold emit at 1. cbn [tags out].
    destruct (solved (solve sys.1 sys.2)); cbn [negb].
    + unfold bind at 1. rewrite writeBack_loop. discriminate.
    + unfold bind, emit, exit. intros E. injection E as _ <-. cbn [out].
      eexists _, _. split; [reflexivity|]. right. eauto.
  - apply assemble_exit in Hasm as (_ & _ & Hout).
    intros E. injection E as _ <-. rewrite Hout.
    eexists _, _. split; [reflexivity|]. left. reflexivity.
Qed.

Lemma processMesh_out (loaded : Mesh T * Tags T) st :
  match processMesh loaded tt st with
  | Ret _ st' => exists pre, out st' = pre ++ [OutSuccess]
  | Exited code st' =>
      code = 1%Z /\
      exists pre e, out st' = pre ++ [e] /\
        (e = OutInvalidFrontCell \/ exists why, e = OutSolverFailed why)
  end.
Proof.
  destruct (processMesh loaded tt st) as [[] st'|code st'] eqn:Hrun.
  - revert Hrun. unfold processMesh. unfold bind at 1. unfold modifyTags at 1.
    unfold bind at 1. destruct (initProblem loaded.1 _) as [[] st1|c1 st1]; [|discriminate].
    unfold bind at 1. destruct (run loaded.1 st1) as [[] st2|c2 st2]; [|discriminate].
    unfold emit. intros E. injection E as <-. cbn [out]. eauto.
  - split; [exact (processMesh_exit_code loaded st code st' Hrun)|].
    revert Hrun. unfold processMesh. unfold bind at 1. unfold modifyTags at 1.
    unfold bind at 1.
    destruct (initProblem loaded.1 _) as [[] st1|c1 st1] eqn:Hinit.
    + unfold bind at 1. destruct (run loaded.1 st1) as [[] st2|c2 st2] eqn:Hr;
        [discriminate|].
      intros E. injection E as _ <-. exact (run_exit_out _ _ _ _ Hr).
    + intros E. injection E as _ <-.
      apply initProblem_exit_out in Hinit. cbn [out] in Hinit.
      eexists _, _. split; [exact Hinit|]. left. reflexivity.
Qed.

Lemma processLoop_out (l : list (Mesh T * Tags T)) st :
  l <> [] ->
  match forEach processMesh l tt st with
  | Ret _ st' => exists pre, out st' = pre ++ [OutSuccess]
  | Exited code st' =>
      code = 1%Z /\
      exists pre e, out st' = pre ++ [e] /\
        (e = OutInvalidFrontCell \/ exists why, e = OutSolverFailed why)
  end.
Proof.
  revert st. induction l as [|x l IH]; intros st Hne; [contradiction|].
  cbn [forEach]. unfold bind at 1.
  pose proof (processMesh_out x st) as Hx.
  destruct (processMesh x tt st) as [[] st1|code st1]; [|exact Hx].
  destruct l as [|y l]; [exact Hx|]. apply IH. discriminate.
Qed.

(** X12.  [main] returns -1, 0 or 1.  It returns -1 exactly when no mesh
    file was named, and then prints the usage line only.  When it returns
    0 the last thing printed is "Success"; when it returns 1 the last
    thing printed is "Invalid FrontCell!" or the failure of the solver. *)
Theorem main_status prog (loaded : list (Mesh T * Tags T)) :
  let status := (main prog loaded).1 in
  let printed := (main prog loaded).2 in
  (status = (-1)%Z \/ status = 0%Z \/ status = 1%Z) /\
  (status = (-1)%Z <-> loaded = []) /\
  (loaded = [] -> printed = [OutUsage prog]) /\
  (status = 0%Z -> exists pre, printed = pre ++ [OutSuccess]) /\
  (status = 1%Z ->
   exists pre e, printed = pre ++ [e] /\
     (e = OutInvalidFrontCell \/ exists why, e = OutSolverFailed why)).
Proof.
  cbv zeta. unfold main. destruct loaded as [|x l].
  - cbn. repeat split; auto; discriminate.
  - pose proof (processLoop_out (x :: l) {| tags := emptyTags; out := [] |}) as Hl.
    destruct (forEach processMesh (x :: l) tt _) as [[] st'|code st'].
    + cbn [fst snd]. specialize (Hl ltac:(discriminate)).
      repeat split; auto; try discriminate.
    + cbn [fst snd]. destruct (Hl ltac:(discriminate)) as [-> Hout].
      repeat split; auto; try discriminate.
Qed.

(** X13.  A fatal mesh ends the whole run: if [main] returns 1 on a list
    of meshes, it returns the same status and prints the same lines on
    any longer list that starts with it.  The meshes named after the one
    that failed are never processed. *)
Theorem main_stops_at_failure prog (l1 l2 : list (Mesh T * Tags T)) :
  (main prog l1).1 = 1%Z ->
  main prog (l1 ++ l2) = main prog l1.
Proof.
  unfold main. destruct l1 as [|x l1]; [cbn; discriminate|].
  cbn [app]. change (x :: l1 ++ l2) with ((x :: l1) ++ l2). rewrite forEach_app.
  destruct (forEach processMesh (x :: l1) tt _) as [[] st'|code st'].
  - cbn. discriminate.
  - reflexivity.
Qed.

Lemma processMesh_success (loaded : Mesh T * Tags T) st :
  resolved loaded.1 ->
  alwaysSolves H1 ->
  exists st' b,
    processMesh loaded tt st = Ret tt st' /\
    out st' = out st ++ b /\ successBlock b.
Proof.
  intros Hres Hsolve.
  unfold processMesh. unfold bind at 1. unfold modifyTags at 1. unfold bind at 1.
  destruct (initProblem_resolved loaded.1 {| tags := loaded.2; out := out st |} Hres)
    as (st1 & -> & Hout1 & _).
  unfold bind at 1.
  pose proof (run_resolved loaded.1 st1 Hres) as Hrun. cbv zeta in Hrun.
  rewrite Hsolve in Hrun. destruct Hrun as (st2 & nC & nL2 & -> & Hout2).
  unfold emit. eexists _, _. split; [reflexivity|]. cbn [out].
  rewrite Hout2, Hout1. cbn [out]. unfold report.
  pose proof (@List.app_assoc (Event T)) as Hassoc.
  rewrite <- !Hassoc. split; [reflexivity|].
  unfold successBlock. cbn [app]. eauto 10.
Qed.

(** X14.  When every named mesh resolves all its internal faces and the
    solver succeeds on every system, [main] returns 0 and prints, for each
    mesh in turn, the same eight items: the size, the call of the solver,
    iterations, residual, the two error norms, the save of the mesh and
    "Success". *)
Theorem main_success prog (loaded : list (Mesh T * Tags T)) :
  loaded <> [] ->
  Forall (fun lm => resolved lm.1) loaded ->
  alwaysSolves H1 ->
  exists blocks,
    main prog loaded = (0%Z, concat blocks) /\
    length blocks = length loaded /\
    Forall successBlock blocks.
Proof.
  intros Hne Hres Hsolve.
  assert (Hloop : forall (l : list (Mesh T * Tags T)) st,
    Forall (fun lm => resolved lm.1) l ->
    exists st' blocks,
      forEach processMesh l tt st = Ret tt st' /\
      out st' = out st ++ concat blocks /\
      length blocks = length l /\ Forall successBlock blocks).
  { clear Hne Hres. pose proof (@List.app_assoc (Event T)) as Hassoc.
    induction l as [|x l IH]; intros st Hl.
    - exists st, []. cbn. rewrite app_nil_r. auto.
    - apply Forall_cons in Hl as [Hx Hl].
      destruct (processMesh_success x st Hx Hsolve) as (st1 & b & Hrun & Hout & Hb).
      destruct (IH st1 Hl) as (st' & blocks & Hrest & Hout' & Hlen & Hall).
      exists st', (b :: blocks). cbn [forEach]. unfold bind at 1.
      rewrite Hrun. split; [exact Hrest|]. split; [|split].
      + rewrite Hout', Hout. cbn [concat]. symmetry. apply Hassoc.
      + cbn. rewrite Hlen. reflexivity.
      + constructor; assumption. }
  destruct (Hloop loaded {| tags := emptyTags; out := [] |} Hres)
    as (st' & blocks & Hrun & Hout & Hlen & Hall).
  exists blocks. unfold main. destruct loaded as [|x l]; [contradiction|].
  rewrite Hrun, Hout. auto.
Qed.

End MainLoop.

(** ** The order of the rationals *)

Lemma rational_strictLess : StrictLess Qc.
Proof.
  split; cbn [fltb rational]; unfold Qc_ltb.
  - intros x. destruct (Qclt_le_dec x x) as [E|_]; [|reflexivity].
    exfalso. exact (Qclt_not_eq _ _ E eq_refl).
  - intros x y z. destruct (Qclt_le_dec x y) as [E1|_]; [|discriminate].
    destruct (Qclt_le_dec y z) as [E2|_]; [|discriminate]. intros _ _.
    destruct (Qclt_le_dec x z) as [_|E3]; [reflexivity|].
    exfalso. apply (Qcle_not_lt _ _ E3). exact (Qclt_trans _ _ _ E1 E2).
  - intros x y z. destruct (Qclt_le_dec x z) as [E|_]; [|discriminate]. intros _.
    destruct (Qclt_le_dec x y) as [_|E1]; [left; reflexivity|]. right.
    destruct (Qclt_le_dec y z) as [_|E2]; [reflexivity|].
    exfalso. apply (Qcle_not_lt _ _ E2). exact (Qcle_lt_trans _ _ _ E1 E).
Qed.

(** ** Sample runs for the rest of the program *)

(** Decides membership in an explicit list. *)
Ltac solve_elem := apply (bool_decide_unpack _); vm_compute; exact I.

(** X1 on the two squares: cell 20 after [initProblem]. *)
Lemma cells_initialized_witness :
  20%N ∈ cells (twoSquares (T := float)) /\
  tensor (tags (finalState (initProblem twoSquares (freshState (T := float))))) 20%N =
    ((flit 1, flit 0), (flit 0, flit 1)).
Proof.
  assert (Hc : 20%N ∈ cells (twoSquares (T := float))) by solve_elem.
  split; [exact Hc|].
  exact (proj1 (proj2 (cells_initialized twoSquares freshState 20%N Hc))).
Defined.

(** X2 on the two squares: the shared edge holds a conductivity and no
    boundary condition. *)
Lemma faces_initialized_witness :
  resolved (twoSquares (T := float)) /\
  exists st',
    initProblem twoSquares (freshState (T := float)) = Ret tt st' /\
    is_Some (tagBCcond (tags st') !! 1%N) /\
    tagBCtype (tags st') !! 1%N = None.
Proof.
  assert (Hres : resolved (twoSquares (T := float))) by solve_resolved.
  split; [exact Hres|].
  destruct (faces_initialized twoSquares freshState Hres) as (st' & Hrun & Hint & _).
  exists st'. split; [exact Hrun|].
  destruct (Hint 1%N 20%N ltac:(solve_elem) eq_refl eq_refl) as (Hcond & Hty & _).
  split; [rewrite Hcond; eauto|exact Hty].
Defined.

(** X3 on the two squares: the right-hand side of the cell with index 0. *)
Lemma rhs_entries_witness :
  let st := finalState (initProblem twoSquares (freshState (T := float))) in
  resolved (twoSquares (T := float)) /\
  exists A rhs,
    assembleGlobalSystem twoSquares (∅, ∅) st = Ret (A, rhs) st /\
    vec_get rhs 0 = rhsEntry twoSquares (tags st) 0.
Proof.
  intros st.
  assert (Hres : resolved (twoSquares (T := float))) by solve_resolved.
  split; [exact Hres|].
  destruct (rhs_entries twoSquares st Hres) as (A & rhs & Hrun & Hrhs).
  exists A, rhs. split; [exact Hrun|apply Hrhs].
Defined.

(** X4 on the two squares: an entry between the two cells, none at a
    column no cell has. *)
Lemma matrix_pattern_witness :
  let st := finalState (initProblem twoSquares (freshState (T := float))) in
  resolved (twoSquares (T := float)) /\
  exists A rhs,
    assembleGlobalSystem twoSquares (∅, ∅) st = Ret (A, rhs) st /\
    is_Some (A !! (0%Z, 1%Z)).
Proof.
  intros st.
  assert (Hres : resolved (twoSquares (T := float))) by solve_resolved.
  split; [exact Hres|].
  destruct (matrix_pattern twoSquares st Hres) as (A & rhs & Hrun & Hpat).
  exists A, rhs. split; [exact Hrun|].
  apply Hpat. exists 1%N. split; [solve_elem|vm_compute; reflexivity].
Defined.

(** X15 on the two squares: the diagonal entry of the cell with index 0. *)
Lemma diagonal_entries_witness :
  let st := finalState (initProblem twoSquares (freshState (T := float))) in
  resolved (twoSquares (T := float)) /\
  exists A rhs,
    assembleGlobalSystem twoSquares (∅, ∅) st = Ret (A, rhs) st /\
    mat_get A 0 0 = flit (-7).
Proof.
  intros st.
  assert (Hres : resolved (twoSquares (T := float))) by solve_resolved.
  split; [exact Hres|].
  destruct (diagonal_entries twoSquares st Hres) as (A & rhs & Hrun & Hdiag).
  exists A, rhs. split; [exact Hrun|]. rewrite Hdiag. vm_compute. reflexivity.
Defined.

(** Decides [cellsListed] on the two squares. *)
Ltac solve_listed :=
  unfold cellsListed; cbn [faces twoSquares];
  repeat (apply Forall_cons; split;
    [split; [solve_elem|cbn; first [exact I|solve_elem]]|]);
  constructor.

(** X5 on the two squares. *)
Lemma solver_system_witness :
  (NoDup (cells (twoSquares (T := float))) /\ resolved (twoSquares (T := float)) /\
   cellsListed (twoSquares (T := float))) /\
  exists st1,
    initProblem (twoSquares (T := float)) freshState = Ret tt st1 /\
    forall i, is_Some ((assembled twoSquares (tags st1) (∅, ∅)).2 !! i) <->
              (0 <= i < 2)%Z.
Proof.
  assert (Hnd : NoDup (cells (twoSquares (T := float)))) by solve_elem.
  assert (Hres : resolved (twoSquares (T := float))) by solve_resolved.
  assert (Hlisted : cellsListed (twoSquares (T := float))) by solve_listed.
  split; [auto|].
  destruct (solver_system (H1 := echoSolver) twoSquares freshState Hnd Hres Hlisted)
    as (st1 & Hinit & _ & _ & _ & Hrhs & _).
  exists st1. split; [exact Hinit|exact Hrhs].
Defined.

(** X6 on the two squares in rational arithmetic, with the six boundary
    faces reclassified as Neumann after [initProblem]. *)
Lemma no_dirichlet_rows_vanish_witness :
  let m := twoSquares (T := Qc) in
  let st := {| tags := reclassified (tags (finalState (initProblem m freshState)))
                         [2; 3; 4; 5; 6; 7]%N;
               out := [] |} in
  (resolved m /\ indicesBelow m (tags st) 2 /\
   forall f, f ∈ faces m -> faceBoundary m f = true ->
             integer (tagBCtype (tags st)) f <> BC_DIR) /\
  exists A rhs,
    assembleGlobalSystem m (∅, ∅) st = Ret (A, rhs) st /\
    rowSum A 0 2 = flit 0 /\ rowSum A 1 2 = flit 0.
Proof.
  intros m st.
  assert (Hres : resolved m) by (subst m; solve_resolved).
  assert (Hin : indicesBelow m (tags st) (Z.of_nat 2)).
  { unfold indicesBelow; subst m; cbn [faces twoSquares].
    repeat (apply Forall_cons; split; [vm_compute; intuition discriminate|]).
    constructor. }
  assert (Hnone : forall f, f ∈ faces m -> faceBoundary m f = true ->
                            integer (tagBCtype (tags st)) f <> BC_DIR).
  { intros f Hf. subst m. cbn [faces twoSquares] in Hf.
    repeat (apply elem_of_cons in Hf as [->|Hf]);
      [..|inversion Hf]; vm_compute; discriminate. }
  split; [auto|].
  destruct (no_dirichlet_rows_vanish m st 2 Hres Hin Hnone) as (A & rhs & Hrun & Hrows).
  exists A, rhs. split; [exact Hrun|]. split; apply Hrows.
Defined.

(** X7 on the two squares with the solver that returns the right-hand
    side: cell 10 holds the entry 0 of the solution. *)
Lemma solution_scattered_witness :
  let m := twoSquares (T := float) in
  let st := finalState (initProblem m freshState) in
  let sys := assembled m (tags st) (∅, ∅) in
  (resolved m /\ solved (solve (LinearSolver := echoSolver) sys.1 sys.2) = true) /\
  exists st',
    run (H1 := echoSolver) m st = Ret tt st' /\
    real (tagConc (tags st')) 10%N = vec_get sys.2 0.
Proof.
  intros m st sys.
  assert (Hres : resolved m) by (subst m; solve_resolved).
  split; [split; [exact Hres|reflexivity]|].
  destruct (solution_scattered (H1 := echoSolver) m st Hres eq_refl)
    as (st' & Hrun & Hcells & _).
  exists st'. split; [exact Hrun|].
  rewrite (proj1 (Hcells 10%N ltac:(subst m; solve_elem))).
  vm_compute. reflexivity.
Defined.

(** X8 in rational arithmetic: the order of the rationals is strict. *)
Lemma errorNormC_is_maximum_witness :
  let m := twoSquares (T := Qc) in
  let tg := tags (finalState (initProblem m freshState)) in
  StrictLess Qc /\
  fltb (errorNorms m tg ∅ (cells m) (flit 0, flit 0)).1 (cellError tg ∅ 10%N) = false.
Proof.
  intros m tg. split; [exact rational_strictLess|].
  apply (proj2 (proj2 (errorNormC_is_maximum m tg ∅)
                  rational_strictLess)).
  subst m. solve_elem.
Defined.

(** X10 with the identity tensor, the normal (1, 0) and the displacement
    (0, -0). *)
Lemma binary64_calc_tf_degenerate_witness :
  calc_tf ((1, 0), (0, 1))%float (1, 0)%float (0, -0)%float = nan.
Proof.
  apply binary64_calc_tf_degenerate; reflexivity.
Defined.

(** X13: the dangling face first, the two squares after it. *)
Lemma main_stops_at_failure_witness :
  (main (H1 := echoSolver (T := float)) "diffusion_fvm"
        [(danglingFace (T := float), emptyTags (T := float))]).1 = 1%Z /\
  main (H1 := echoSolver (T := float)) "diffusion_fvm"
       ([(danglingFace (T := float), emptyTags (T := float))] ++ [(twoSquares (T := float), emptyTags (T := float))]) =
  (1%Z, [OutInvalidFrontCell]).
Proof.
  assert (Hst : (main (H1 := echoSolver (T := float)) "diffusion_fvm"
                   [(danglingFace (T := float), emptyTags (T := float))]).1 = 1%Z)
    by (vm_compute; reflexivity).
  split; [exact Hst|].
  rewrite (main_stops_at_failure (H1 := echoSolver (T := float)) "diffusion_fvm"
             [(danglingFace (T := float), emptyTags (T := float))] [(twoSquares (T := float), emptyTags (T := float))] Hst).
  vm_compute. reflexivity.
Defined.

(** X14: the two squares twice, with the solver that returns the
    right-hand side. *)
Lemma main_success_witness :
  ([(twoSquares (T := float), emptyTags (T := float)); (twoSquares (T := float), emptyTags (T := float))] <> [] /\
   Forall (fun lm : Mesh float * Tags float => resolved lm.1)
          [(twoSquares (T := float), emptyTags (T := float)); (twoSquares (T := float), emptyTags (T := float))] /\
   alwaysSolves (echoSolver (T := float))) /\
  exists blocks,
    main (H1 := echoSolver (T := float)) "diffusion_fvm"
         [(twoSquares (T := float), emptyTags (T := float)); (twoSquares (T := float), emptyTags (T := float))] =
      (0%Z, concat blocks) /\
    length blocks = 2%nat.
Proof.
  assert (Hne : [(twoSquares (T := float), emptyTags (T := float)); (twoSquares (T := float), emptyTags (T := float))] <> [])
    by discriminate.
  assert (Hres : Forall (fun lm : Mesh float * Tags float => resolved lm.1)
                        [(twoSquares (T := float), emptyTags (T := float)); (twoSquares (T := float), emptyTags (T := float))])
    by (repeat (apply Forall_cons; split; [cbn beta iota delta [fst]; solve_resolved|]);
        constructor).
  assert (Hsolve : alwaysSolves (echoSolver (T := float)))
    by (intros A rhs; reflexivity).
  split; [auto|].
  destruct (main_success (H1 := echoSolver (T := float)) "diffusion_fvm" _ Hne Hres Hsolve)
    as (blocks & Hmain & Hlen & _).
  exists blocks. split; [exact Hmain|exact Hlen].
Defined.

(** ** Sample runs of the assembly *)


(** Counterexample to C5 as stated.  On the mesh [twoRectangles] in
    binary64 the two transmissibilities of the shared edge are 2 and -1,
    and the stored conductivity 2 * -1 / (2 - -1) is -2/3 rounded.  The
    face loop leaves 0 + t - 2 - 2 - 2, rounded at every step, on the
    diagonal of row 0 and 0 - t next to it: the row sums to
    -5.9999999999999991, the three boundary contributions to -6. *)
Lemma row_sums_balance_counterexample :
  let m := twoRectangles (T := float) in
  (NoDup (cells m) /\ resolved m /\ cellsListed m /\ 10%N ∈ cells m) /\
  exists st1 A rhs,
    initProblem m freshState = Ret tt st1 /\
    assembleGlobalSystem m (∅, ∅) st1 = Ret (A, rhs) st1 /\
    cellBoundarySum m (tags st1) 10%N = flit (-6) /\
    rowSum A (integer (tagGlobInd (tags st1)) 10%N) (length (cells m)) <>
      cellBoundarySum m (tags st1) 10%N.
Proof.
  intros m.
  split.
  - split; [solve_elem|]. split; [|split; [|solve_elem]].
    + unfold resolved; subst m; cbn [faces twoRectangles].
      repeat (apply Forall_cons; split;
        [intros Hb; first [eexists; reflexivity | cbv in Hb; discriminate Hb]|]).
      constructor.
    + unfold cellsListed; subst m; cbn [faces twoRectangles].
      repeat (apply Forall_cons; split;
        [split; [solve_elem|cbn; first [exact I|solve_elem]]|]).
      constructor.
  - eexists _, _, _. split; [vm_compute; reflexivity|].
    split; [vm_compute; reflexivity|]. split; [vm_compute; reflexivity|].
    float_neq.
Qed.
